(** * JsModel query builder: a shallow embedding of [src/Builder.js]

    The builder keeps two ordered, key-unique stores (constraints and
    appended parameters), serialises them into a query string and dispatches
    the responses of four network operations on their status code.

    JavaScript values live in an explicit heap: arrays and plain objects are
    heap cells addressed by a location, so that sharing between the caller
    and the builder, and the copies made by [clone], are visible. *)

From Stdlib Require Import ZArith String Ascii DecimalString.
From stdpp Require Import base option list strings gmap.

Local Open Scope Z_scope.
Local Set Warnings "-register-all".

(** ** The JavaScript fragment the builder relies on *)

Module Js.

Abbreviation loc := nat.

(** Numbers are NaN and the integers, [VNum 0] being +0; the conversions
    and the arithmetic below are those of JavaScript on the safe integers
    ([safe_integer]), where doubles are exact and are printed in plain
    decimal, and the statements that rest on them are made within that
    bound.  Strings are taken as their UTF-8 byte sequence, which is what
    [encodeURIComponent] escapes. *)
Inductive value :=
| VUndefined
| VNull
| VBool (b : bool)
| VNum (n : Z)
| VNaN
| VStr (s : string)
| VRef (l : loc).

(** A heap cell.  The properties of a plain object are listed in the order
    in which [for .. in] enumerates them. *)
Inductive object :=
| OArray (elems : list value)
| OObject (props : list (string * value)).

Abbreviation heap := (list object).

#[global] Instance value_eq_dec : EqDecision value.
Proof. solve_decision. Defined.

#[global] Instance object_eq_dec : EqDecision object.
Proof. solve_decision. Defined.

Definition is_ref (v : value) : bool :=
  match v with VRef _ => true | _ => false end.

Definition obj_values (o : object) : list value :=
  match o with
  | OArray xs => xs
  | OObject ps => ps.*2
  end.

(** [v instanceof Array] and [v instanceof Object].  Every cell stands for
    an array or an object that inherits from [Object.prototype], as literals
    and the values of a JSON response do; an object made without a prototype
    is not represented. *)
Definition instanceof_Array (h : heap) (v : value) : bool :=
  match v with
  | VRef l => match h !! l with Some (OArray _) => true | _ => false end
  | _ => false
  end.

Definition instanceof_Object (h : heap) (v : value) : bool :=
  match v with
  | VRef l => match h !! l with Some _ => true | None => false end
  | _ => false
  end.

(** The integers on which the sums and differences of JavaScript and its
    printing of numbers are those of the integers
    ([Number.isSafeInteger]): beyond them a Number is a rounded double. *)
Definition safe_integer (n : Z) : Prop := - 2 ^ 53 < n < 2 ^ 53.

(** *** ToString *)

(** The digits of an integer: the text JavaScript prints for a safe
    integer.  (Beyond these it prints the shortest digits that identify the
    double, and an exponent from 1e21 on.) *)
Definition number_to_string (n : Z) : string :=
  NilZero.string_of_int (Z.to_int n).

Fixpoint join (sep : string) (ss : list string) : string :=
  match ss with
  | [] => ""
  | [s] => s
  | s :: rest => s +:+ sep +:+ join sep rest
  end.

(** The conversion of a value to a string where it yields one, as told by
    [converts] below.  An array is converted by [Array.prototype.join],
    which skips [undefined] and [null] and yields the empty string for an
    array that is already being joined ([seen]); a plain object that
    inherits [toString] becomes [[object Object]]. *)
Fixpoint to_string_aux (fuel : nat) (h : heap) (seen : list loc) (v : value)
  : string :=
  match v with
  | VUndefined => "undefined"
  | VNull => "null"
  | VBool true => "true"
  | VBool false => "false"
  | VNum n => number_to_string n
  | VNaN => "NaN"
  | VStr s => s
  | VRef l =>
      match fuel with
      | O => ""
      | S fuel' =>
          if bool_decide (l ∈ seen) then ""
          else match h !! l with
               | Some (OArray xs) =>
                   join ","
                     (map (fun x =>
                             match x with
                             | VUndefined | VNull => ""
                             | _ => to_string_aux fuel' h (l :: seen) x
                             end) xs)
               | Some (OObject _) => "[object Object]"
               | None => ""
               end
      end
  end.

(** Every nested array adds its location to [seen], so the nesting never
    exceeds the number of heap cells. *)
Definition to_string (h : heap) (v : value) : string :=
  to_string_aux (S (length h)) h [] v.

(** The values on which [to_string] is the conversion of JavaScript: a
    number has to be a safe integer, which is printed digit by digit; an
    object must not have a property [toString] of its own, which would be
    called in the place of the inherited one and, not being a function here,
    make the conversion throw a TypeError; an array has to be made of such
    values, nested to a finite depth. *)
Fixpoint converts_aux (fuel : nat) (h : heap) (v : value) : bool :=
  match v with
  | VNum n => bool_decide (safe_integer n)
  | VRef l =>
      match fuel with
      | O => false
      | S fuel' =>
          match h !! l with
          | Some (OArray xs) => forallb (converts_aux fuel' h) xs
          | Some (OObject ps) => bool_decide ("toString" ∉ ps.*1)
          | None => false
          end
      end
  | _ => true
  end.

Definition converts (h : heap) (v : value) : bool :=
  converts_aux (S (length h)) h v.

(** *** ToNumber, [+] and [-] *)

Definition is_space (c : ascii) : bool :=
  match nat_of_ascii c with
  | 9%nat | 10%nat | 11%nat | 12%nat | 13%nat | 32%nat => true
  | _ => false
  end.

Fixpoint trim_left (s : string) : string :=
  match s with
  | String c s' => if is_space c then trim_left s' else s
  | EmptyString => EmptyString
  end.

Definition trim (s : string) : string :=
  String.rev (trim_left (String.rev (trim_left s))).

(** Numeric strings: optional sign and decimal digits between white space,
    the empty string being 0; a string without digits is NaN.  The other
    numeric literals of JavaScript (a fraction, an exponent, a radix prefix,
    [Infinity]) are outside the integers and are not told from NaN; no
    statement below reads one. *)
Definition string_to_number (s : string) : option Z :=
  match trim s with
  | EmptyString => Some 0
  | String "+" s' => Z.of_uint <$> NilZero.uint_of_string s'
  | String "-" s' => Z.opp <$> (Z.of_uint <$> NilZero.uint_of_string s')
  | s' => Z.of_uint <$> NilZero.uint_of_string s'
  end.

(** [None] stands for NaN. *)
Definition to_number (h : heap) (v : value) : option Z :=
  match v with
  | VUndefined => None
  | VNull => Some 0
  | VBool true => Some 1
  | VBool false => Some 0
  | VNum n => Some n
  | VNaN => None
  | VStr s => string_to_number s
  | VRef _ => string_to_number (to_string h v)
  end.

Definition of_number (n : option Z) : value :=
  match n with Some z => VNum z | None => VNaN end.

Definition is_stringish (v : value) : bool :=
  match v with VStr _ | VRef _ => true | _ => false end.

(** [a + b]: concatenation as soon as an operand is a string, an array or
    an object, a sum of numbers otherwise; [a - b] is always a difference of
    numbers.  These are the results of JavaScript on operands that
    [converts] (for [-], a string being one that [string_to_number] reads),
    sums and differences being exact within the safe integers. *)
Definition add (h : heap) (a b : value) : value :=
  if is_stringish a || is_stringish b
  then VStr (to_string h a +:+ to_string h b)
  else of_number (x ← to_number h a; y ← to_number h b; Some (x + y)).

Definition sub (h : heap) (a b : value) : value :=
  of_number (x ← to_number h a; y ← to_number h b; Some (x - y)).

(** *** encodeURIComponent *)

Definition unreserved (c : ascii) : bool :=
  let n := nat_of_ascii c in
  ((65 <=? n) && (n <=? 90))%nat || ((97 <=? n) && (n <=? 122))%nat
  || ((48 <=? n) && (n <=? 57))%nat
  || bool_decide (c ∈ list_ascii_of_string "-_.!~*'()").

Definition hex_digit (n : nat) : ascii :=
  ascii_of_nat (if (n <? 10)%nat then 48 + n else 55 + n)%nat.

Definition percent_encode (c : ascii) : string :=
  let n := nat_of_ascii c in
  String "%" (String (hex_digit (n / 16)) (String (hex_digit (n mod 16)) "")).

Fixpoint uri_encode (s : string) : string :=
  match s with
  | EmptyString => EmptyString
  | String c s' =>
      if unreserved c then String c (uri_encode s')
      else percent_encode c +:+ uri_encode s'
  end.

Definition encodeURIComponent (h : heap) (v : value) : string :=
  uri_encode (to_string h v).

End Js.

Import Js.


(** ** Structural content of a value and the [clone] library *)

(** The finite tree a value denotes in a heap.  [read] gives up ([None]) on a
    dangling location and on a structure deeper than [fuel]. *)
Inductive tree :=
| TLeaf (v : value)
| TArray (ts : list tree)
| TObject (ps : list (string * tree)).

Fixpoint read (fuel : nat) (h : heap) (v : value) : option tree :=
  match v with
  | VRef l =>
      match fuel with
      | O => None
      | S fuel' =>
          match h !! l with
          | Some (OArray xs) => TArray <$> mapM (read fuel' h) xs
          | Some (OObject ps) =>
              TObject <$> (zip ps.*1 <$> mapM (read fuel' h) ps.*2)
          | None => None
          end
      end
  | _ => Some (TLeaf v)
  end.

(** The locations a caller can get to from a value. *)
Inductive reachable (h : heap) : value -> loc -> Prop :=
| reach_here l : reachable h (VRef l) l
| reach_step l o w m :
    h !! l = Some o -> w ∈ obj_values o -> reachable h w m ->
    reachable h (VRef l) m.

(** Modelled from the spec: the [clone] package is a dependency that is not
    part of the sources; section 9 describes it as a structural clone, a
    recursive copy of arrays and maps.  Primitives are returned as they are;
    every array or object met is copied into a newly allocated cell.  The
    package remembers the copies it has made ([memo], from a cell to its
    copy), so that a cell met again, in a shared or a cyclic structure, is
    copied once and the copy has the shape of the original. *)
Abbreviation copies := (gmap loc loc).

(** The cell a copy starts as, and the cell it is once its members have been
    copied. *)
Definition empty_like (o : object) : object :=
  match o with OArray _ => OArray [] | OObject _ => OObject [] end.

Definition with_values (o : object) (vs : list value) : object :=
  match o with
  | OArray _ => OArray vs
  | OObject ps => OObject (zip ps.*1 vs)
  end.

(** Copying the members of a cell one after the other, threading the heap
    and the copies made. *)
Fixpoint clone_all
  (f : copies -> heap -> value -> option (value * (heap * copies)))
  (memo : copies) (h : heap) (xs : list value)
  : option (list value * (heap * copies)) :=
  match xs with
  | [] => Some ([], (h, memo))
  | x :: xs' =>
      '(x', (h1, memo1)) ← f memo h x;
      '(xs'', (h2, memo2)) ← clone_all f memo1 h1 xs';
      Some (x' :: xs'', (h2, memo2))
  end.

(** The copy of a cell is allocated and remembered before its members are
    copied.  [fuel] bounds the nesting of cells that are not copied yet; the
    copy gives up ([None]) when it runs out, and on a dangling location. *)
Fixpoint clone_from (fuel : nat) (memo : copies) (h : heap) (v : value)
  : option (value * (heap * copies)) :=
  match v with
  | VRef l =>
      match memo !! l with
      | Some l' => Some (VRef l', (h, memo))
      | None =>
          match fuel with
          | O => None
          | S fuel' =>
              match h !! l with
              | Some o =>
                  let child := length h in
                  '(vs, (h', memo')) ←
                    clone_all (clone_from fuel') (<[l := child]> memo)
                      (h ++ [empty_like o]) (obj_values o);
                  Some (VRef child, (<[child := with_values o vs]> h', memo'))
              | None => None
              end
          end
      end
  | _ => Some (v, (h, memo))
  end.

Definition clone (fuel : nat) (h : heap) (v : value) : option (value * heap) :=
  '(v', (h', _)) ← clone_from fuel ∅ h v;
  Some (v', h').

(** What can be seen of a value down to a depth; unlike [read] it is defined
    on cyclic structures too, which it cuts at the depth ([PDeeper]). *)
Inductive prefix :=
| PLeaf (v : value)
| PArray (ts : list prefix)
| PObject (ps : list (string * prefix))
| PDeeper
| PNowhere.

Fixpoint look (depth : nat) (h : heap) (v : value) : prefix :=
  match v with
  | VRef l =>
      match depth with
      | O => PDeeper
      | S depth' =>
          match h !! l with
          | Some (OArray xs) => PArray (look depth' h <$> xs)
          | Some (OObject ps) => PObject (zip ps.*1 (look depth' h <$> ps.*2))
          | None => PNowhere
          end
      end
  | _ => PLeaf v
  end.

(** No cell of the heap holds a dangling location. *)
Definition heap_closed (h : heap) : bool :=
  forallb (fun o =>
             forallb (fun v => match v with
                               | VRef l => bool_decide (l < length h)%nat
                               | _ => true
                               end) (obj_values o)) h.

(** ** The keyed collection *)

Module Collection.
Section Keyed.
Context {A : Type} (key : A -> string).

(** Modelled from the spec: the [js_collection] package is a dependency that
    is not part of the sources; sections 4.1, 4.2 and 9 describe it as an
    ordered collection of records looked up by a key property, iterated in
    insertion order.  [get] yields the first record with the key, together
    with its position, which stands for the reference JavaScript hands out. *)
Definition get (k : string) (c : list A) : option (nat * A) :=
  list_find (fun x => key x = k) c.

(** Modelled from the spec: [push] adds a record after the stored ones. *)
Definition push (x : A) (c : list A) : list A := c ++ [x].

(** Modelled from the spec: [each] visits the records in insertion order;
    [s] is the state the visiting callback works on. *)
Definition each {S : Type} (visit : S -> A -> S) (c : list A) (s : S) : S :=
  fold_left visit c s.

End Keyed.
End Collection.

(** ** The builder's data model *)

Module Constraint.
Record t := { filter : string; value : Js.value }.
End Constraint.

Module Append.
Record t := { name : string; value : Js.value }.
End Append.

(** The model descriptor is an external collaborator; the builder only reads
    its [url] and calls its factories. *)
Record ModelDescriptor := { url : string }.

Record Builder := {
  model : ModelDescriptor;
  _constraints : list Constraint.t;
  appends : list Append.t
}.

(** The state a method runs in: the heap and the builder it is called on. *)
Record World := { mem : heap; self : Builder }.

(** The two exception classes are imported from files that are not part of
    the sources; section 7 names them.  TypeError is the engine's. *)
Inductive exn :=
| DuplicateVariableException (message : string)
| UnknownVariableException (message : string)
| TypeError.

Inductive completion (A : Type) :=
| Return (a : A)
| Throw (e : exn)
| OutOfFuel.
Arguments Return {A} a.
Arguments Throw {A} e.
Arguments OutOfFuel {A}.

(** What a method hands back: the builder itself ([return this]) or a value;
    a method without [return] hands back [undefined]. *)
Inductive retval :=
| This
| Val (v : value).

(** *** A state and exception monad for method bodies *)

Definition M (A : Type) : Type := World -> completion A * World.

Definition ret {A} (a : A) : M A := fun w => (Return a, w).

Definition bind {A B} (m : M A) (k : A -> M B) : M B :=
  fun w =>
    match m w with
    | (Return a, w') => k a w'
    | (Throw e, w') => (Throw e, w')
    | (OutOfFuel, w') => (OutOfFuel, w')
    end.

Definition throw {A} (e : exn) : M A := fun w => (Throw e, w).

Notation "'do' x <- m ; k" := (bind m (fun x => k))
  (at level 10, x name, m at level 100, k at level 200).
Notation "m ;; k" := (bind m (fun _ => k))
  (at level 100, k at level 200, right associativity).

Definition this : M Builder := fun w => (Return (self w), w).
Definition memory : M heap := fun w => (Return (mem w), w).

Definition set_constraints (c : list Constraint.t) : M unit :=
  fun w => (Return tt,
            {| mem := mem w;
               self := {| model := model (self w); _constraints := c;
                          appends := appends (self w) |} |}).

Definition set_appends (a : list Append.t) : M unit :=
  fun w => (Return tt,
            {| mem := mem w;
               self := {| model := model (self w);
                          _constraints := _constraints (self w);
                          appends := a |} |}).

(** Allocation of a new heap cell. *)
Definition alloc (o : object) : M value :=
  fun w => (Return (VRef (length (mem w))),
            {| mem := mem w ++ [o]; self := self w |}).

Definition run_clone (fuel : nat) (v : value) : M value :=
  fun w =>
    match clone fuel (mem w) v with
    | Some (v', h') => (Return v', {| mem := h'; self := self w |})
    | None => (OutOfFuel, w)
    end.

Definition quoted (s : string) : string :=
  String (ascii_of_nat 34) s +:+ String (ascii_of_nat 34) "".

(** ** The builder's methods *)

(** [constructor(model)] *)
Definition new (m : ModelDescriptor) : Builder :=
  {| model := m;
     _constraints := [];
     appends := [ {| Append.name := "limit"; Append.value := VNum 15 |};
                  {| Append.name := "page"; Append.value := VNum 1 |} ] |}.

Definition getConstraintValue (fuel : nat) (filter : string) : M value :=
  do b <- this;
  do h <- memory;
  match Collection.get Constraint.filter filter (_constraints b) with
  | Some (_, constraint) =>
      if instanceof_Object h (Constraint.value constraint)
      then run_clone fuel (Constraint.value constraint)
      else ret (Constraint.value constraint)
  | None => ret VNull
  end.

Definition hasConstraint (filter : string) : M bool :=
  do b <- this;
  ret (bool_decide
         (is_Some (Collection.get Constraint.filter filter (_constraints b)))).

Definition hasVariable (name : string) : M bool :=
  do b <- this;
  ret (bool_decide (is_Some (Collection.get Append.name name (appends b)))).

(** [this.appends.get(name).value]; reading a property of [null] throws. *)
Definition append_value (name : string) : M value :=
  do b <- this;
  match Collection.get Append.name name (appends b) with
  | Some (_, item) => ret (Append.value item)
  | None => throw TypeError
  end.

(** [this.appends.get(name).value = value]: the record found is changed in
    place, at its position. *)
Definition assign_append_value (name : string) (v : value) : M unit :=
  do b <- this;
  match Collection.get Append.name name (appends b) with
  | Some (i, item) =>
      set_appends
        (<[i := {| Append.name := Append.name item; Append.value := v |}]>
           (appends b))
  | None => throw TypeError
  end.

(** [getVariable(name, default_result = null)]: an argument that is left
    out, or is [undefined], takes the default. *)
Definition getVariable (name : string) (default_result : value) : M value :=
  let default_result :=
    match default_result with VUndefined => VNull | d => d end in
  do has <- hasVariable name;
  if has then append_value name else ret default_result.

Definition append (name : string) (v : value) : M retval :=
  do has <- hasVariable name;
  (if has
   then throw (DuplicateVariableException
                 ("Variable " +:+ quoted name +:+ " has already been appended!"))
   else do b <- this;
        set_appends
          (Collection.push {| Append.name := name; Append.value := v |}
             (appends b))) ;;
  ret This.

(** The body has no [return]. *)
Definition updateVariable (name : string) (v : value) : M retval :=
  do has <- hasVariable name;
  (if has
   then assign_append_value name v
   else throw (UnknownVariableException
                 ("Cannot update unknown variable with name " +:+ quoted name
                  +:+ "!"))) ;;
  ret (Val VUndefined).

(** [orderBy(...orderings)]: the rest parameter is a new array. *)
Definition orderBy (orderings : list value) : M retval :=
  do arr <- alloc (OArray orderings);
  do has <- hasVariable "order";
  (if has then updateVariable "order" arr else append "order" arr) ;;
  ret This.

Definition orderingBy (fuel : nat) : M value :=
  do has <- hasVariable "order";
  if has
  then do v <- getVariable "order" VNull; run_clone fuel v
  else ret VNull.

Definition getLimit : M value :=
  do has <- hasVariable "limit";
  if has then append_value "limit" else ret (VNum (-1)).

Definition setLimit (v : value) : M retval :=
  do has <- hasVariable "limit";
  (if has then updateVariable "limit" v else append "limit" v) ;;
  ret This.

Definition currentPage : M value := append_value "page".

Definition setPage (page : value) : M retval :=
  assign_append_value "page" page ;;
  ret This.

Definition incrementPage : M retval :=
  do p <- currentPage;
  do h <- memory;
  setPage (add h p (VNum 1)) ;;
  ret This.

Definition decrementPage : M retval :=
  do p <- currentPage;
  do h <- memory;
  setPage (sub h p (VNum 1)) ;;
  ret This.

(** [where(filter, value)]; the name itself is a keyword here. *)
Definition where_ (filter : string) (v : value) : M retval :=
  do b <- this;
  match Collection.get Constraint.filter filter (_constraints b) with
  | None =>
      set_constraints
        (Collection.push
           {| Constraint.filter := filter; Constraint.value := v |}
           (_constraints b))
  | Some (i, constraint) =>
      set_constraints
        (<[i := {| Constraint.filter := Constraint.filter constraint;
                   Constraint.value := v |}]> (_constraints b))
  end ;;
  ret This.

(** *** Serialisation *)

Definition separator (first : bool) : string := if first then "?" else "&".

(** [item.value.length] and [item.value[i]] for an array, the enumerated
    properties for an object. *)
Definition elements (h : heap) (v : value) : list value :=
  match v with
  | VRef l => match h !! l with Some (OArray xs) => xs | _ => [] end
  | _ => []
  end.

Definition properties (h : heap) (v : value) : list (string * value) :=
  match v with
  | VRef l => match h !! l with Some (OObject ps) => ps | _ => [] end
  | _ => []
  end.

(** The callback given to [this._constraints.each]; the accumulator holds
    the two captured variables [query_string] and [first]. *)
Definition visit_constraint (h : heap) (acc : string * bool)
  (constraint : Constraint.t) : string * bool :=
  let '(query_string, first) := acc in
  let query_string := query_string +:+ separator first in
  let query_string :=
    query_string +:+ "filters["
      +:+ encodeURIComponent h (VStr (Constraint.filter constraint))
      +:+ "][]=" +:+ encodeURIComponent h (Constraint.value constraint) in
  (query_string, false).

(** The callback given to [this.appends.each]: [first] is cleared once per
    parameter, after its pairs have been written. *)
Definition visit_append (h : heap) (acc : string * bool) (item : Append.t)
  : string * bool :=
  let '(query_string, first) := acc in
  let name := encodeURIComponent h (VStr (Append.name item)) in
  let v := Append.value item in
  let query_string :=
    if instanceof_Array h v then
      fold_left
        (fun query_string x =>
           (query_string +:+ separator first)
             +:+ name +:+ "[]=" +:+ encodeURIComponent h x)
        (elements h v) query_string
    else if instanceof_Object h v then
      fold_left
        (fun query_string '(key, x) =>
           (query_string +:+ separator first)
             +:+ name +:+ "[" +:+ encodeURIComponent h (VStr key) +:+ "]="
             +:+ encodeURIComponent h x)
        (properties h v) query_string
    else
      (query_string +:+ separator first)
        +:+ name +:+ "=" +:+ encodeURIComponent h v in
  (query_string, false).

Definition toQueryString : M string :=
  do b <- this;
  do h <- memory;
  let acc := ("", true) in
  let acc := Collection.each (visit_constraint h) (_constraints b) acc in
  let acc := Collection.each (visit_append h) (appends b) acc in
  ret (fst acc).

(** The states in which every value [toQueryString] converts to a string
    is one that [converts]: the values of the constraints, and of a
    parameter its elements, its property values or the value itself. *)
Definition serialisable (h : heap) (b : Builder) : bool :=
  forallb (fun c => converts h (Constraint.value c)) (_constraints b)
  && forallb
       (fun item =>
          let v := Append.value item in
          if instanceof_Array h v then forallb (converts h) (elements h v)
          else if instanceof_Object h v
               then forallb (fun p => converts h p.2) (properties h v)
               else converts h v)
       (appends b).

(** *** Requests and response dispatch *)

(** A callback argument is a function or it is not; [typeof c == 'function']
    tells them apart. *)
Inductive callback :=
| Function (f : string)
| NotFunction (v : value).

Definition typeof_function (c : callback) : bool :=
  match c with Function _ => true | NotFunction _ => false end.

(** Models and collections come from the factories of the model descriptor;
    they are kept symbolic. *)
Record Model := { attributes : value; exists_ : bool }.
Record ModelCollection := { models : list Model; query : retval }.

Inductive argument :=
| ArgValue (v : value)
| ArgModel (m : Model)
| ArgCollection (c : ModelCollection).

Record call := { callee : string; arguments : list argument }.

(** What running a status handler does: the callbacks it calls, in order,
    and the exception it ends with, if any.  A callback that is called is
    taken to return. *)
Record outcome := { calls : list call; raised : option exn }.

Definition silent : outcome := {| calls := []; raised := None |}.

Definition raise (e : exn) : outcome := {| calls := []; raised := Some e |}.

(** [c(args)]: calling what is not a function is a TypeError. *)
Definition invoke (c : callback) (args : list argument) : outcome :=
  match c with
  | Function f =>
      {| calls := [ {| callee := f; arguments := args |} ]; raised := None |}
  | NotFunction _ => raise TypeError
  end.

Definition newModel (data : value) : Model :=
  {| attributes := data; exists_ := false |}.

(** [encapsulateData(items)] on the elements of [items].  The write-back of
    each model into the array it came from is not represented, models being
    symbolic. *)
Definition encapsulateData (items : list value) : list Model :=
  map (fun item =>
         {| attributes := attributes (newModel item); exists_ := true |})
    items.

(** [this.model.newCollection(models)] followed by [setQuery(this)]. *)
Definition _collectData (models : list Model) : ModelCollection :=
  {| models := models; query := This |}.

(** [payload[key]]. *)
Definition property (h : heap) (payload : value) (key : string)
  : completion value :=
  match payload with
  | VUndefined | VNull => Throw TypeError
  | VRef l =>
      match h !! l with
      | Some (OObject ps) =>
          match list_find (fun p => p.1 = key) ps with
          | Some (_, (_, v)) => Return v
          | None => Return VUndefined
          end
      | _ => Return VUndefined
      end
  | _ => Return VUndefined
  end.

(** [o[key]] on a plain object. *)
Definition own_property (ps : list (string * value)) (key : string) : value :=
  match list_find (fun p => p.1 = key) ps with
  | Some (_, (_, v)) => v
  | None => VUndefined
  end.

(** How often the loop [for (i = 0; i < length; ++i)] runs. *)
Definition rounds (h : heap) (length : value) : nat :=
  match to_number h length with
  | Some n => Z.to_nat n
  | None => O
  end.

(** The records [encapsulateData] loops over, [items[i]] for [i] below
    [items.length].  Reading [length] throws on [undefined] and [null]; an
    array gives its elements; an object gives the properties named by the
    indices below its [length], if it has one; a number or a boolean has no
    [length].  A string that is not empty has one, and the assignment to
    [items[0]] throws, the module being strict code. *)
Definition items_of (h : heap) (items : value) : completion (list value) :=
  match items with
  | VUndefined | VNull => Throw TypeError
  | VStr s => if decide (s = "") then Return [] else Throw TypeError
  | VRef l =>
      match h !! l with
      | Some (OArray xs) => Return xs
      | Some (OObject ps) =>
          Return ((fun i => own_property ps (number_to_string (Z.of_nat i)))
                    <$> seq 0 (rounds h (own_property ps "length")))
      | None => Return []
      end
  | _ => Return []
  end.

Module Ajax.

(** A status handler reads the response in the heap of the moment the
    response arrives. *)
Definition handler := heap -> value -> outcome.

Record settings := {
  headers : list (string * string);
  dataType : string;
  method : string;
  url : string;
  data : option value;
  statusCode : list (Z * handler)
}.

(** Modelled from the spec: the transport ([jQuery.ajax]) is an external
    collaborator; section 6 describes its response dispatch as a table keyed
    by status code.  The handler registered for the status runs on the
    response; a status without handler does nothing. *)
Definition respond (s : settings) (status : Z) (h : heap) (response : value)
  : outcome :=
  match list_find (fun e => e.1 = status) (statusCode s) with
  | Some (_, (_, run)) => run h response
  | None => silent
  end.

End Ajax.

Definition get (success error : callback) : M Ajax.settings :=
  do b <- this;
  do query_string <- toQueryString;
  ret {| Ajax.headers := [("Accept", "application/json")];
         Ajax.dataType := "json";
         Ajax.method := "GET";
         Ajax.url := url (model b) +:+ query_string;
         Ajax.data := None;
         Ajax.statusCode :=
           [ (500, fun _ response =>
                     if typeof_function error
                     then invoke error [ArgValue response; ArgValue (VNum 500)]
                     else silent);
             (422, fun _ response =>
                     if typeof_function error
                     then invoke error [ArgValue response; ArgValue (VNum 500)]
                     else silent);
             (200, fun h payload =>
                     match property h payload "data" with
                     | Return d =>
                         match items_of h d with
                         | Return items =>
                             let models := encapsulateData items in
                             let collection := _collectData models in
                             invoke success
                               [ArgCollection collection; ArgValue payload]
                         | Throw e => raise e
                         | OutOfFuel => silent
                         end
                     | Throw e => raise e
                     | OutOfFuel => silent
                     end) ] |}.

Definition update (attributes : value) (success error : callback)
  : M Ajax.settings :=
  do b <- this;
  do query_string <- toQueryString;
  ret {| Ajax.headers := [("Accept", "application/json")];
         Ajax.dataType := "json";
         Ajax.method := "POST";
         Ajax.url := (url (model b) +:+ "/update") +:+ query_string;
         Ajax.data := Some attributes;
         Ajax.statusCode :=
           [ (500, fun _ response =>
                     if typeof_function error
                     then invoke error [ArgValue response; ArgValue (VNum 500)]
                     else silent);
             (422, fun _ response =>
                     if typeof_function error
                     then invoke error [ArgValue response; ArgValue (VNum 422)]
                     else silent);
             (200, fun h payload =>
                     if typeof_function success
                     then
                       match property h payload "data" with
                       | Return d =>
                           match items_of h d with
                           | Return items =>
                               let models := encapsulateData items in
                               let collection := _collectData models in
                               invoke success
                                 [ArgCollection collection; ArgValue payload]
                           | Throw e => raise e
                           | OutOfFuel => silent
                           end
                       | Throw e => raise e
                       | OutOfFuel => silent
                       end
                     else silent) ] |}.

Definition insert (attributes : value) (success error : callback)
  : M Ajax.settings :=
  do b <- this;
  ret {| Ajax.headers := [("Accept", "application/json")];
         Ajax.dataType := "json";
         Ajax.method := "POST";
         Ajax.url := url (model b) +:+ "/store";
         Ajax.data := Some attributes;
         Ajax.statusCode :=
           [ (500, fun _ response =>
                     if typeof_function error
                     then invoke error [ArgValue response; ArgValue (VNum 500)]
                     else silent);
             (422, fun _ response =>
                     if typeof_function error
                     then invoke error [ArgValue response; ArgValue (VNum 422)]
                     else silent);
             (200, fun _ data =>
                     if typeof_function success
                     then
                       match encapsulateData [data] with
                       | models :: _ => invoke success [ArgModel models]
                       | [] => invoke success [ArgValue VUndefined]
                       end
                     else silent) ] |}.

Definition deleteResults (success error : callback) : M Ajax.settings :=
  do b <- this;
  do query_string <- toQueryString;
  ret {| Ajax.headers := [("Accept", "application/json")];
         Ajax.dataType := "json";
         Ajax.method := "POST";
         Ajax.url := (url (model b) +:+ "/delete") +:+ query_string;
         Ajax.data := None;
         Ajax.statusCode :=
           [ (500, fun _ response =>
                     if typeof_function error
                     then invoke error [ArgValue response; ArgValue (VNum 500)]
                     else silent);
             (422, fun _ response =>
                     if typeof_function error
                     then invoke error [ArgValue response; ArgValue (VNum 422)]
                     else silent);
             (403, fun _ _ =>
                     if typeof_function error
                     then invoke error [ArgValue VNull; ArgValue (VNum 403)]
                     else silent);
             (200, fun h data =>
                     if typeof_function success
                     then
                       match items_of h data with
                       | Return items =>
                           let models := encapsulateData items in
                           let collection := _collectData models in
                           invoke success [ArgCollection collection]
                       | Throw e => raise e
                       | OutOfFuel => silent
                       end
                     else silent) ] |}.

(** The outcome of an operation when the transport delivers a response:
    [request] is issued in [w], and the handler registered for [status] runs
    on [response] in the heap [h] of that later moment. *)
Definition dispatch (request : M Ajax.settings) (w : World) (status : Z)
  (h : heap) (response : value) : outcome :=
  match fst (request w) with
  | Return s => Ajax.respond s status h response
  | Throw e => raise e
  | OutOfFuel => silent
  end.

(** ** Invariants and specification-level notions *)

(** The data-model invariant: keys are unique in both stores. *)
Definition key_unique (b : Builder) : Prop :=
  NoDup (Constraint.filter <$> _constraints b)
  /\ NoDup (Append.name <$> appends b).

(** A value is a primitive or a location at or above [k]. *)
Definition above (k : nat) (v : value) : Prop :=
  match v with VRef l => (k <= l)%nat | _ => True end.

(** A value is a primitive or a location of the heap [h0]. *)
Definition old (h0 : heap) (v : value) : Prop :=
  match v with VRef l => (l < length h0)%nat | _ => True end.

(** A value is a primitive or a location that has its copy. *)
Definition known (memo : copies) (v : value) : Prop :=
  match v with VRef l => is_Some (memo !! l) | _ => True end.

(** A value with every location replaced by its copy. *)
Definition image (memo : copies) (v : value) : value :=
  match v with
  | VRef l => match memo !! l with Some l' => VRef l' | None => v end
  | _ => v
  end.

(** The state of a copy under way, started in the heap [h0]: the cells of
    [h0] are as they were, the copies lie after them, and the cells after
    them only point to one another. *)
Record copying (h0 h : heap) (memo : copies) : Prop := {
  copying_old : forall k o, h0 !! k = Some o -> h !! k = Some o;
  copying_memo : forall l l', memo !! l = Some l' ->
                   (l < length h0)%nat /\ (length h0 <= l' < length h)%nat;
  copying_new : forall k o, (length h0 <= k)%nat -> h !! k = Some o ->
                  Forall (above (length h0)) (obj_values o)
}.

(** The cell [l'] is the finished copy of the cell [l]: member for member,
    the primitive itself or the copy of the location. *)
Definition copied (h0 h : heap) (memo : copies) (l l' : loc) : Prop :=
  exists o,
    h0 !! l = Some o
    /\ Forall (known memo) (obj_values o)
    /\ h !! l' = Some (with_values o (image memo <$> obj_values o)).

(** What one run of the copy does to the state it starts in. *)
Record cloned (h0 : heap) (memo : copies) (h : heap) (memo' : copies)
  (h' : heap) : Prop := {
  cloned_copying : copying h0 h' memo';
  cloned_memo : memo ⊆ memo';
  cloned_length : (length h <= length h')%nat;
  cloned_frame : forall k, (k < length h)%nat -> h' !! k = h !! k;
  cloned_new : forall l l', memo' !! l = Some l' -> memo !! l = None ->
                 (length h <= l')%nat /\ copied h0 h' memo' l l'
}.

(** The statement proved of [clone_from] at each amount of fuel that is
    [enough]. *)
Definition clone_total (h0 : heap) (enough : nat -> copies -> value -> Prop)
  (n : nat) : Prop :=
  forall memo h v,
    copying h0 h memo -> enough n memo v ->
    exists v' h' memo',
      clone_from n memo h v = Some (v', (h', memo'))
      /\ cloned h0 memo h memo' h'
      /\ known memo' v
      /\ v' = image memo' v.

(** For a value of finite depth, that depth is enough. *)
Definition enough_depth (h0 : heap) (n : nat) (memo : copies) (v : value)
  : Prop :=
  is_Some (read n h0 v).

(** Whatever the value, one unit of fuel per cell is enough: a cell is
    entered once. *)
Definition enough_cells (h0 : heap) (n : nat) (memo : copies) (v : value)
  : Prop :=
  heap_closed h0 = true /\ old h0 v /\ (length h0 < n + size memo)%nat.

(** [result] is what a read of [stored] in [w] should produce: a new
    location, whose content equals that of [stored], the builder being left
    as it was, the cells that existed before the call being untouched by it
    and out of reach of a write through the result. *)
Definition deep_copy_of (fuel : nat) (stored : value) (w : World)
  (result : completion value * World) : Prop :=
  exists l' h',
    result = (Return (VRef l'), {| mem := h'; self := self w |})
    /\ VRef l' <> stored
    /\ read fuel h' (VRef l') = read fuel (mem w) stored
    /\ (forall k, (k < length (mem w))%nat -> h' !! k = mem w !! k)
    /\ forall m o,
        reachable h' (VRef l') m ->
        (forall k, (k < length (mem w))%nat ->
                   <[m := o]> h' !! k = mem w !! k)
        /\ (forall n v t, read n (mem w) v = Some t ->
                          read n (<[m := o]> h') v = Some t).

(** [result] looks like [stored] down to every depth; this is equality of
    content for structures that are cyclic, which [read] does not tell
    apart. *)
Definition looks_like (stored : value) (w : World)
  (result : completion value * World) : Prop :=
  exists v',
    fst result = Return v'
    /\ forall depth,
        look depth (mem (snd result)) v' = look depth (mem w) stored.

(** ** Auxiliary notions used in the statements *)

Definition with_appends (w : World) (a : list Append.t) : World :=
  {| mem := mem w;
     self := {| model := model (self w);
                _constraints := _constraints (self w);
                appends := a |} |}.

Definition with_constraints (w : World) (c : list Constraint.t) : World :=
  {| mem := mem w;
     self := {| model := model (self w);
                _constraints := c;
                appends := appends (self w) |} |}.

Definition allocated (w : World) (o : object) : World :=
  {| mem := mem w ++ [o]; self := self w |}.

Definition error_call (f : string) (response : value) (code : Z) : outcome :=
  {| calls := [ {| callee := f;
                   arguments := [ArgValue response; ArgValue (VNum code)] |} ];
     raised := None |}.

(** *** The mutators as data *)

Inductive mutator :=
| Where (filter : string) (v : value)
| OrderBy (orderings : list value)
| SetLimit (v : value)
| SetPage (page : value)
| IncrementPage
| DecrementPage
| AppendVariable (name : string) (v : value)
| UpdateVariable (name : string) (v : value).

Definition perform (c : mutator) : M retval :=
  match c with
  | Where f v => where_ f v
  | OrderBy os => orderBy os
  | SetLimit v => setLimit v
  | SetPage p => setPage p
  | IncrementPage => incrementPage
  | DecrementPage => decrementPage
  | AppendVariable n v => append n v
  | UpdateVariable n v => updateVariable n v
  end.

(** A sequence of calls on one builder; a call that throws leaves the
    builder to the next call as it is. *)
Definition perform_all (cs : list mutator) (w : World) : World :=
  fold_left (fun w c => snd (perform c w)) cs w.

(** *** Serialisation after the rules of section 4.4 *)

(** The pairs of section 4.4, steps 2 and 3, written after the text. *)
Definition spec_constraint_pair (h : heap) (c : Constraint.t) : string :=
  "filters[" +:+ encodeURIComponent h (VStr (Constraint.filter c))
    +:+ "][]=" +:+ encodeURIComponent h (Constraint.value c).

Definition spec_append_pairs (h : heap) (item : Append.t) : list string :=
  let name := encodeURIComponent h (VStr (Append.name item)) in
  let v := Append.value item in
  if instanceof_Array h v then
    map (fun x => name +:+ "[]=" +:+ encodeURIComponent h x) (elements h v)
  else if instanceof_Object h v then
    map (fun '(key, x) =>
           name +:+ "[" +:+ encodeURIComponent h (VStr key) +:+ "]="
             +:+ encodeURIComponent h x)
      (properties h v)
  else [name +:+ "=" +:+ encodeURIComponent h v].

Definition spec_pairs (h : heap) (b : Builder) : list string :=
  (spec_constraint_pair h <$> _constraints b)
    ++ (appends b ≫= spec_append_pairs h).

Fixpoint prefixed (sep : string) (ps : list string) : string :=
  match ps with
  | [] => ""
  | p :: ps' => sep +:+ p +:+ prefixed sep ps'
  end.

(** Step 4: [?] before the first pair, [&] before every other one. *)
Definition spec_query_string (ps : list string) : string :=
  match ps with
  | [] => ""
  | p :: ps' => "?" +:+ p +:+ prefixed "&" ps'
  end.

(** *** Worlds the interface can lead to *)

(** A world is reached from a new builder by calls of the mutators; between
    two calls the caller may do to the heap whatever it likes. *)
Inductive reached : World -> Prop :=
| reached_new m h : reached {| mem := h; self := new m |}
| reached_call c w : reached w -> reached (snd (perform c w))
| reached_heap h w : reached w -> reached {| mem := h; self := self w |}.

(** [w'] differs from [w] by additions only: the heap and the key sequences
    of both stores are extended at their end, by one entry at most. *)
Definition only_adds (w w' : World) : Prop :=
  model (self w') = model (self w)
  /\ (exists ext, mem w' = mem w ++ ext /\ (length ext <= 1)%nat)
  /\ (exists extra,
        Constraint.filter <$> _constraints (self w')
        = (Constraint.filter <$> _constraints (self w)) ++ extra
        /\ (length extra <= 1)%nat)
  /\ (exists extra,
        Append.name <$> appends (self w')
        = (Append.name <$> appends (self w)) ++ extra
        /\ (length extra <= 1)%nat).

(** *** Counting characters *)

Fixpoint occurrences (c : ascii) (s : string) : nat :=
  match s with
  | EmptyString => 0
  | String a s' => (if decide (a = c) then 1 else 0) + occurrences c s'
  end.

(** The string [Array.prototype.join] takes for an element that is no
    array or object. *)
Definition element_string (h : heap) (x : value) : string :=
  match x with
  | VUndefined | VNull => ""
  | _ => to_string h x
  end.

(** The model the factories build from one record. *)
Definition existing_model (record : value) : Model :=
  {| attributes := record; exists_ := true |}.

(** *** A sample state *)

Definition sample_world : World :=
  let h := [ OArray [VStr "a"; VStr "b"];
             OObject [("attribute", VStr "name"); ("direction", VStr "asc")] ] in
  let w := {| mem := h; self := new {| url := "/users" |} |} in
  snd (orderBy [VRef 1%nat] (snd (where_ "tags" (VRef 0%nat) w))).

(** A state whose constraint holds a cyclic structure: an array whose
    member points back to it. *)
Definition cyclic_world : World :=
  let h := [ OArray [VRef 1%nat]; OObject [("up", VRef 0%nat)] ] in
  snd (where_ "loop" (VRef 0%nat)
         {| mem := h; self := new {| url := "/users" |} |}).

Definition sample_reached : World :=
  snd (perform (AppendVariable "tags" (VStr "a"))
         (snd (perform (Where "status" (VStr "active"))
                 {| mem := []; self := new {| url := "/users" |} |}))).

(** ** Proof automation *)

Ltac unfold_methods :=
  unfold orderBy, orderingBy, getLimit, setLimit, incrementPage,
    decrementPage, getConstraintValue, hasConstraint, where_, toQueryString,
    getVariable, append, updateVariable, currentPage, setPage,
    append_value, assign_append_value, hasVariable,
    bind, ret, throw, this, memory, set_constraints, set_appends, alloc,
    run_clone in *.

(** ** The JavaScript fragment on small inputs *)

Example encode_number : encodeURIComponent [] (VNum 15) = "15".
Proof. reflexivity. Qed.

Example encode_reserved : encodeURIComponent [] (VStr "a b&c=d") = "a%20b%26c%3Dd".
Proof. reflexivity. Qed.

Example encode_array :
  encodeURIComponent [OArray [VStr "a b"; VNull; VNum (-3)]] (VRef 0%nat)
  = "a%20b%2C%2C-3".
Proof. reflexivity. Qed.

Example encode_object :
  encodeURIComponent [OObject [("k", VNum 1)]] (VRef 0%nat)
  = "%5Bobject%20Object%5D".
Proof. reflexivity. Qed.

Example page_as_string :
  add [] (VStr "12") (VNum 1) = VStr "121"
  /\ sub [] (VStr " 12 ") (VNum 1) = VNum 11
  /\ sub [] VUndefined (VNum 1) = VNaN.
Proof. repeat split; reflexivity. Qed.

Example items_of_bodies :
  items_of [OArray [VStr "r"]] (VRef 0%nat) = Return [VStr "r"]
  /\ items_of [OObject [("length", VNum 2); ("0", VStr "r")]] (VRef 0%nat)
     = Return [VStr "r"; VUndefined]
  /\ items_of [] (VStr "rs") = Throw TypeError
  /\ items_of [] (VNum 5) = Return [].
Proof. repeat split; reflexivity. Qed.

Example clone_nested :
  let h := [OArray [VNum 1]; OObject [("xs", VRef 0%nat)]] in
  clone 2 h (VRef 1%nat)
  = Some (VRef 2%nat,
          h ++ [OObject [("xs", VRef 3%nat)]; OArray [VNum 1]])
  /\ clone 1 h (VRef 1%nat) = None.
Proof. split; reflexivity. Qed.

(** A shared cell is copied once, and a cycle is copied as a cycle. *)
Example clone_shared :
  let h := [OArray [VNum 1]; OArray [VRef 0%nat; VRef 0%nat]] in
  clone 2 h (VRef 1%nat)
  = Some (VRef 2%nat,
          h ++ [OArray [VRef 3%nat; VRef 3%nat]; OArray [VNum 1]]).
Proof. reflexivity. Qed.

Example clone_cyclic :
  let h := [OArray [VRef 1%nat]; OObject [("up", VRef 0%nat)]] in
  clone 2 h (VRef 0%nat)
  = Some (VRef 2%nat,
          h ++ [OArray [VRef 3%nat]; OObject [("up", VRef 2%nat)]])
  /\ read 5 h (VRef 0%nat) = None
  /\ look 3 h (VRef 0%nat)
     = PArray [PObject [("up", PArray [PDeeper])]].
Proof. repeat split; reflexivity. Qed.

(** ** Properties of the heap model *)

(** Reading is unaffected by whatever happens outside the cells read. *)
Lemma read_mono (n : nat) (h h2 : heap) (v : value) (t : tree) :
  (forall l o, h !! l = Some o -> h2 !! l = Some o) ->
  read n h v = Some t -> read n h2 v = Some t.
Proof.
  intros Hsub. revert v t.
  induction n as [|n IH]; intros v t; destruct v; simpl; try done.
  destruct (h !! l) as [o|] eqn:Hl; [|done].
  rewrite (Hsub _ _ Hl).
  assert (Hall : forall xs ts, mapM (read n h) xs = Some ts ->
                               mapM (read n h2) xs = Some ts).
  { intros xs ts Hm. apply mapM_Some. apply mapM_Some in Hm.
    eapply Forall2_impl; [exact Hm|]. intros x y Hxy. by apply IH. }
  destruct o as [xs|ps]; intros Hr.
  - destruct (mapM (read n h) xs) as [ts|] eqn:Hm; [|done].
    by rewrite (Hall _ _ Hm).
  - destruct (mapM (read n h) ps.*2) as [ts|] eqn:Hm; [|done].
    by rewrite (Hall _ _ Hm).
Qed.

Lemma read_app (n : nat) (h ext : heap) (v : value) (t : tree) :
  read n h v = Some t -> read n (h ++ ext) v = Some t.
Proof.
  apply read_mono. intros l o Hl. by apply lookup_app_l_Some.
Qed.

(** *** The copy made by [clone] *)

Lemma insert_last (h : heap) (o o' : object) :
  <[length h := o']> (h ++ [o]) = h ++ [o'].
Proof. induction h as [|x h IH]; simpl; [done|]. by rewrite IH. Qed.

Lemma copying_length (h0 h : heap) (memo : copies) :
  copying h0 h memo -> (length h0 <= length h)%nat.
Proof.
  intros [Hold _ _]. destruct (decide (length h0 <= length h)%nat); [done|].
  destruct (lookup_lt_is_Some_2 h0 (length h)) as [o Ho]; [lia|].
  apply Hold in Ho. apply lookup_lt_Some in Ho. lia.
Qed.

Lemma copying_start (h0 : heap) : copying h0 h0 ∅.
Proof.
  split; [done| |].
  - intros l l' Hl. by rewrite lookup_empty in Hl.
  - intros k o Hk Ho. apply lookup_lt_Some in Ho. lia.
Qed.

Lemma image_known (memo memo' : copies) (v : value) :
  memo ⊆ memo' -> known memo v -> image memo' v = image memo v.
Proof.
  intros Hsub Hk. destruct v; try done. simpl in *.
  destruct Hk as [l' Hl']. rewrite Hl'.
  by rewrite (lookup_weaken _ _ _ _ Hl' Hsub).
Qed.

Lemma known_weaken (memo memo' : copies) (v : value) :
  memo ⊆ memo' -> known memo v -> known memo' v.
Proof.
  intros Hsub Hk. destruct v; try done. simpl in *.
  destruct Hk as [l' Hl']. exists l'. by eapply lookup_weaken.
Qed.

Lemma obj_values_with_values (o : object) (vs : list value) :
  length vs = length (obj_values o) -> obj_values (with_values o vs) = vs.
Proof.
  destruct o as [xs|ps]; simpl; [done|]. intros Hlen.
  rewrite length_fmap in Hlen. apply snd_zip. rewrite length_fmap. lia.
Qed.

Lemma copied_stable (h0 h h' : heap) (memo memo' : copies) (l l' : loc) :
  copied h0 h memo l l' ->
  memo ⊆ memo' ->
  h' !! l' = h !! l' ->
  copied h0 h' memo' l l'.
Proof.
  intros (o & Ho & Hk & Hl') Hsub Heq. exists o.
  split; [done|]. split.
  - eapply Forall_impl; [exact Hk|]. intros v. by apply known_weaken.
  - rewrite Heq, Hl'. do 2 f_equal.
    apply Forall_fmap_ext. eapply Forall_impl; [exact Hk|].
    intros v Hv. symmetry. by apply image_known.
Qed.

(** The copy started in [h0] succeeds, with the effect [cloned], whenever
    the fuel is [enough]; what is enough is left open here and settled
    twice below, by the depth of the value and by the size of the heap. *)
Section CloneTotal.
Variable h0 : heap.
Variable enough : nat -> copies -> value -> Prop.
Hypothesis enough_old : forall n memo v, enough n memo v -> old h0 v.
Hypothesis enough_zero : forall memo h l,
  copying h0 h memo -> enough 0 memo (VRef l) -> is_Some (memo !! l).
Hypothesis enough_step : forall n memo l c o,
  enough (S n) memo (VRef l) -> memo !! l = None -> h0 !! l = Some o ->
  Forall (enough n (<[l := c]> memo)) (obj_values o).
Hypothesis enough_mono : forall n memo memo' v,
  enough n memo v -> memo ⊆ memo' -> enough n memo' v.

Lemma cloned_refl (memo : copies) (h : heap) :
  copying h0 h memo -> cloned h0 memo h memo h.
Proof.
  intros Hc. split; try done. intros l l' Hl Hn. by rewrite Hl in Hn.
Qed.

Lemma cloned_trans (memo memo1 memo2 : copies) (h h1 h2 : heap) :
  copying h0 h memo ->
  cloned h0 memo h memo1 h1 -> cloned h0 memo1 h1 memo2 h2 ->
  cloned h0 memo h memo2 h2.
Proof.
  intros Hc [Hc1 Hs1 Hl1 Hf1 Hn1] [Hc2 Hs2 Hl2 Hf2 Hn2]. split.
  - done.
  - by etrans.
  - lia.
  - intros k Hk. rewrite Hf2 by lia. by apply Hf1.
  - intros l l' Hl Hn. destruct (memo1 !! l) as [l1|] eqn:Hm1.
    + pose proof (lookup_weaken _ _ _ _ Hm1 Hs2) as Hl1'.
      rewrite Hl in Hl1'. injection Hl1' as ->.
      destruct (Hn1 _ _ Hm1 Hn) as [Hle Hcp]. split; [done|].
      eapply copied_stable; [exact Hcp | done |].
      apply Hf2. apply (copying_memo _ _ _ Hc1) in Hm1. lia.
    + destruct (Hn2 _ _ Hl Hm1) as [Hle Hcp]. split; [lia | done].
Qed.

Lemma clone_all_total (n : nat) :
  clone_total h0 enough n ->
  forall xs memo h,
    copying h0 h memo -> Forall (enough n memo) xs ->
    exists xs' h' memo',
      clone_all (clone_from n) memo h xs = Some (xs', (h', memo'))
      /\ cloned h0 memo h memo' h'
      /\ Forall (known memo') xs
      /\ xs' = image memo' <$> xs.
Proof.
  intros Hn. induction xs as [|x xs IH]; intros memo h Hc Hall.
  - exists [], h, memo.
    split; [done|]. split; [by apply cloned_refl|]. split; done.
  - apply Forall_cons in Hall as [Hx Hxs].
    destruct (Hn _ _ _ Hc Hx) as (x' & h1 & memo1 & Hcl & Hd1 & Hk1 & ->).
    assert (Hxs1 : Forall (enough n memo1) xs).
    { eapply Forall_impl; [exact Hxs|]. intros v Hv.
      eapply enough_mono; [exact Hv|]. apply Hd1. }
    destruct (IH _ _ (cloned_copying _ _ _ _ _ Hd1) Hxs1)
      as (xs' & h2 & memo2 & Hcl2 & Hd2 & Hk2 & ->).
    exists (image memo1 x :: (image memo2 <$> xs)), h2, memo2.
    split; [simpl; rewrite Hcl; simpl; by rewrite Hcl2|].
    split; [by eapply cloned_trans|].
    split.
    + constructor; [|done]. eapply known_weaken; [|exact Hk1]. apply Hd2.
    + simpl. f_equal. symmetry. apply image_known; [apply Hd2 | done].
Qed.

Lemma clone_from_total (n : nat) : clone_total h0 enough n.
Proof.
  induction n as [|n IH]; intros memo h v Hc He.
  - destruct v as [| | | | | |l];
      try (eexists _, h, memo;
           split; [done|]; split; [by apply cloned_refl|]; split; done).
    destruct (enough_zero _ _ _ Hc He) as [l' Hl'].
    exists (VRef l'), h, memo. simpl. rewrite Hl'.
    split; [done|]. split; [by apply cloned_refl|].
    split; [by exists l' | done].
  - destruct v as [| | | | | |l];
      try (eexists _, h, memo;
           split; [done|]; split; [by apply cloned_refl|]; split; done).
    destruct (memo !! l) as [l'|] eqn:Hm.
    { exists (VRef l'), h, memo. simpl. rewrite Hm.
      split; [done|]. split; [by apply cloned_refl|].
      split; [by exists l' | done]. }
    pose proof (enough_old _ _ _ He) as Hl. simpl in Hl.
    destruct (lookup_lt_is_Some_2 h0 l Hl) as [o Ho].
    pose proof (copying_old _ _ _ Hc _ _ Ho) as Hho.
    pose proof (copying_length _ _ _ Hc) as Hlen.
    set (child := length h).
    assert (Hc1 : copying h0 (h ++ [empty_like o]) (<[l := child]> memo)).
    { split.
      - intros k o' Hk. apply lookup_app_l_Some. by apply Hc.
      - intros k k' Hk. rewrite length_app. simpl.
        destruct (decide (k = l)) as [->|Hne].
        + rewrite lookup_insert_eq in Hk. injection Hk as <-. unfold child. lia.
        + rewrite lookup_insert_ne in Hk by done.
          apply (copying_memo _ _ _ Hc) in Hk. lia.
      - intros k o' Hk Hk'.
        destruct (decide (k < length h)%nat) as [Hlt|Hge].
        + rewrite lookup_app_l in Hk' by done. by eapply (copying_new _ _ _ Hc).
        + assert (k = length h) as ->.
          { apply lookup_lt_Some in Hk'. rewrite length_app in Hk'.
            simpl in Hk'. lia. }
          rewrite list_lookup_middle in Hk' by done. injection Hk' as <-.
          by destruct o. }
    pose proof (enough_step _ _ _ child _ He Hm Ho) as Hfields.
    destruct (clone_all_total n IH _ _ _ Hc1 Hfields)
      as (vs & h' & memo' & Hcl & Hd & Hk & ->).
    destruct Hd as [Hc' Hsub Hlen' Hframe Hnew].
    rewrite length_app in Hlen'. simpl in Hlen'.
    assert (Hchild : memo' !! l = Some child).
    { eapply lookup_weaken; [|exact Hsub]. by rewrite lookup_insert_eq. }
    set (vs := image memo' <$> obj_values o).
    assert (Hvs : obj_values (with_values o vs) = vs).
    { apply obj_values_with_values. unfold vs. by rewrite length_fmap. }
    exists (VRef child), (<[child := with_values o vs]> h'), memo'.
    split; [simpl; rewrite Hm, Hho; simpl; fold child; by rewrite Hcl|].
    split; [|split; [by exists child | by simpl; rewrite Hchild]].
    split.
    + split.
      * intros k o' Hk'. pose proof (lookup_lt_Some _ _ _ Hk').
        rewrite list_lookup_insert_ne by (unfold child; lia).
        by apply Hc'.
      * intros k k' Hk'. rewrite length_insert. by apply Hc'.
      * intros k o' Hk' Hlook.
        destruct (decide (k = child)) as [->|Hne].
        -- rewrite list_lookup_insert_eq in Hlook by (unfold child; lia).
           injection Hlook as <-. rewrite Hvs. unfold vs.
           apply Forall_fmap. eapply Forall_impl; [exact Hk|].
           intros v Hv. destruct v as [| | | | | |x]; try done. simpl in *.
           destruct Hv as [x' Hx']. rewrite Hx'. simpl.
           apply (copying_memo _ _ _ Hc') in Hx'. lia.
        -- rewrite list_lookup_insert_ne in Hlook by done.
           by eapply (copying_new _ _ _ Hc').
    + etrans; [|exact Hsub]. by apply insert_subseteq.
    + rewrite length_insert. lia.
    + intros k Hk'. rewrite list_lookup_insert_ne by (unfold child; lia).
      rewrite Hframe by (rewrite length_app; simpl; lia).
      by rewrite lookup_app_l.
    + intros k k' Hk' Hnone.
      destruct (decide (k = l)) as [->|Hne].
      * rewrite Hchild in Hk'. injection Hk' as <-. split; [done|].
        exists o. split; [done|]. split; [done|].
        rewrite list_lookup_insert_eq by (unfold child; lia). done.
      * assert (Hn1 : <[l := child]> memo !! k = None)
          by (by rewrite lookup_insert_ne).
        destruct (Hnew _ _ Hk' Hn1) as [Hle Hcp].
        rewrite length_app in Hle. simpl in Hle. split; [lia|].
        eapply copied_stable; [exact Hcp | done |].
        rewrite list_lookup_insert_ne by (unfold child; lia). done.
Qed.

End CloneTotal.

Lemma heap_closed_lookup (h : heap) (l : loc) (o : object) :
  heap_closed h = true -> h !! l = Some o -> Forall (old h) (obj_values o).
Proof.
  unfold heap_closed. rewrite forallb_forall. intros Hall Hl.
  apply list_elem_of_lookup_2, list_elem_of_In in Hl.
  specialize (Hall _ Hl). rewrite forallb_forall in Hall.
  apply Forall_forall. intros v Hv. apply list_elem_of_In in Hv.
  specialize (Hall _ Hv). destruct v; try done. simpl.
  by apply bool_decide_eq_true in Hall.
Qed.

Lemma mapM_fmap_ext {A B C} (f : B -> option C) (g : A -> option C)
  (k : A -> B) (xs : list A) :
  Forall (fun x => f (k x) = g x) xs -> mapM f (k <$> xs) = mapM g xs.
Proof.
  induction 1 as [|x xs Hx _ IH]; [done|].
  change (mapM f (k x :: (k <$> xs)) = mapM g (x :: xs)).
  cbn [mapM]. by rewrite Hx, IH.
Qed.

Section Copies.
Variables (h0 h' : heap) (memo' : copies).
Hypothesis all_copied :
  forall l l', memo' !! l = Some l' -> copied h0 h' memo' l l'.

Lemma copy_read (n : nat) (v : value) :
  known memo' v -> read n h' (image memo' v) = read n h0 v.
Proof.
  revert v. induction n as [|n IH]; intros v Hk;
    destruct v as [| | | | | |l]; try done; simpl in Hk;
    destruct Hk as [l' Hl']; simpl; rewrite Hl'; [done|].
  destruct (all_copied _ _ Hl') as (o & Ho & Hks & Hcell).
  cbn [read]. rewrite Ho, Hcell.
  assert (Hall : mapM (read n h') (image memo' <$> obj_values o)
                 = mapM (read n h0) (obj_values o)).
  { apply mapM_fmap_ext. eapply Forall_impl; [exact Hks|]. apply IH. }
  destruct o as [xs|ps]; simpl in *; [by rewrite Hall|].
  rewrite fst_zip, snd_zip by (rewrite !length_fmap; lia).
  by rewrite Hall.
Qed.

Lemma copy_look (n : nat) (v : value) :
  known memo' v -> look n h' (image memo' v) = look n h0 v.
Proof.
  revert v. induction n as [|n IH]; intros v Hk;
    destruct v as [| | | | | |l]; try done; simpl in Hk;
    destruct Hk as [l' Hl']; simpl; rewrite Hl'; [done|].
  destruct (all_copied _ _ Hl') as (o & Ho & Hks & Hcell).
  cbn [look]. rewrite Ho, Hcell.
  assert (Hall : look n h' <$> (image memo' <$> obj_values o)
                 = look n h0 <$> obj_values o).
  { rewrite <- list_fmap_compose. apply Forall_fmap_ext.
    eapply Forall_impl; [exact Hks|]. apply IH. }
  destruct o as [xs|ps]; simpl in *; [by rewrite Hall|].
  rewrite fst_zip, snd_zip by (rewrite !length_fmap; lia).
  by rewrite Hall.
Qed.

End Copies.

(** Whatever is reachable from a copy lies among the cells added by the
    copy. *)
Lemma reachable_new (h0 h : heap) (memo : copies) (v : value) (m : loc) :
  copying h0 h memo ->
  reachable h v m ->
  above (length h0) v ->
  (length h0 <= m)%nat.
Proof.
  intros Hc Hr. induction Hr as [l|l o w m Hl Hw Hr IH]; simpl; [done|].
  intros Hle. apply IH.
  pose proof (copying_new _ _ _ Hc _ _ Hle Hl) as Hall.
  rewrite Forall_forall in Hall. by apply Hall.
Qed.

(** *** Enough fuel *)

Lemma depth_clone (fuel : nat) (h : heap) :
  clone_total h (enough_depth h) fuel.
Proof.
  apply clone_from_total; unfold enough_depth.
  - intros n memo x [t Ht]. destruct x as [| | | | | |l]; try done. simpl.
    destruct n as [|n]; [done|]. simpl in Ht.
    destruct (h !! l) eqn:Hl; [|done]. by eapply lookup_lt_Some.
  - intros memo h1 l _ [t Ht]. done.
  - intros n memo l c o [t Ht] _ Ho. simpl in Ht. rewrite Ho in Ht.
    assert (Hall : forall xs ts, mapM (read n h) xs = Some ts ->
                                 Forall (fun x => is_Some (read n h x)) xs).
    { intros xs ts Hm. apply mapM_Some in Hm.
      induction Hm; constructor; [by eexists | done]. }
    destruct o as [xs|ps]; simpl in *.
    + destruct (mapM (read n h) xs) as [ts|] eqn:Hm; [|done]. by eapply Hall.
    + destruct (mapM (read n h) ps.*2) as [ts|] eqn:Hm; [|done].
      by eapply Hall.
  - done.
Qed.

Lemma copying_size (h0 h : heap) (memo : copies) :
  copying h0 h memo -> (size memo <= length h0)%nat.
Proof.
  intros Hc.
  assert (Hsub : dom memo ⊆ (set_seq 0 (length h0) : gset nat)).
  { intros l Hl. apply elem_of_dom in Hl as [l' Hl'].
    apply (copying_memo _ _ _ Hc) in Hl'. apply elem_of_set_seq. lia. }
  apply subseteq_size in Hsub. rewrite size_dom, size_set_seq in Hsub. done.
Qed.

Lemma cells_clone (fuel : nat) (h : heap) :
  clone_total h (enough_cells h) fuel.
Proof.
  apply clone_from_total; unfold enough_cells.
  - intros n memo x (_ & Hx & _). done.
  - intros memo h1 l Hc (_ & _ & Hsize).
    apply copying_size in Hc. simpl in Hsize. lia.
  - intros n memo l c o (Hcl & Hl & Hsize) Hm Ho.
    pose proof (heap_closed_lookup _ _ _ Hcl Ho) as Hall.
    eapply Forall_impl; [exact Hall|]. intros v Hv.
    split; [done|]. split; [done|].
    rewrite map_size_insert_None by done. lia.
  - intros n memo memo' v (Hcl & Hv & Hsize) Hsub.
    split; [done|]. split; [done|].
    apply map_subseteq_size in Hsub. lia.
Qed.

(** ** Properties of the keyed collection *)

Section CollectionFacts.
Context {A : Type} (key : A -> string).

Lemma get_is_Some (k : string) (c : list A) :
  is_Some (Collection.get key k c) <-> exists x, x ∈ c /\ key x = k.
Proof.
  unfold Collection.get. split.
  - intros [[i x] Hf]. apply list_find_Some in Hf as (Hi & Hk & _).
    exists x. split; [|done]. by eapply list_elem_of_lookup_2.
  - intros (x & Hx & Hk). by eapply list_find_elem_of.
Qed.

Lemma get_None (k : string) (c : list A) :
  Collection.get key k c = None <-> ~ exists x, x ∈ c /\ key x = k.
Proof.
  rewrite <- get_is_Some, <- eq_None_not_Some. done.
Qed.

Lemma get_Some_key (k : string) (c : list A) (i : nat) (x : A) :
  Collection.get key k c = Some (i, x) -> c !! i = Some x /\ key x = k.
Proof.
  unfold Collection.get. intros Hf.
  apply list_find_Some in Hf as (Hi & Hk & _). done.
Qed.

Lemma get_push_absent (k : string) (c : list A) (x : A) :
  Collection.get key k c = None -> key x = k ->
  Collection.get key k (Collection.push x c) = Some (length c, x).
Proof.
  unfold Collection.get, Collection.push. intros Hn Hk.
  apply list_find_Some. split; [|split; [done|]].
  - by rewrite list_lookup_middle.
  - intros j y Hj Hlt. rewrite lookup_app_l in Hj by done.
    apply list_find_None in Hn. rewrite Forall_forall in Hn.
    apply Hn. by eapply list_elem_of_lookup_2.
Qed.

Lemma get_insert_same (k : string) (c : list A) (i : nat) (x y : A) :
  Collection.get key k c = Some (i, x) -> key y = k ->
  Collection.get key k (<[i := y]> c) = Some (i, y).
Proof.
  unfold Collection.get. intros Hf Hk.
  apply list_find_Some in Hf as (Hi & _ & Hmin).
  apply list_find_Some. split; [|split; [done|]].
  - apply list_lookup_insert_eq. by eapply lookup_lt_Some.
  - intros j z Hj Hlt. rewrite list_lookup_insert_ne in Hj by lia.
    by eapply Hmin.
Qed.

Lemma keys_insert (c : list A) (i : nat) (x y : A) :
  c !! i = Some x -> key y = key x -> key <$> <[i := y]> c = key <$> c.
Proof.
  intros Hi Hk. rewrite list_fmap_insert, Hk.
  apply list_insert_id. by rewrite list_lookup_fmap, Hi.
Qed.

Lemma keys_push_NoDup (k : string) (c : list A) (x : A) :
  NoDup (key <$> c) -> Collection.get key k c = None -> key x = k ->
  NoDup (key <$> Collection.push x c).
Proof.
  intros Hnd Hn Hk. unfold Collection.push. rewrite fmap_app. simpl.
  apply NoDup_app. split; [done|]. split; [|apply NoDup_singleton].
  intros k' Hin Hin'. apply list_elem_of_singleton in Hin'. subst k'.
  apply list_elem_of_fmap in Hin as (y & Hy & Hyc).
  apply get_None in Hn. apply Hn. exists y. split; [done|]. congruence.
Qed.

Lemma filter_key_absent (k : string) (c : list A) :
  k ∉ key <$> c -> filter (fun y => key y = k) c = [].
Proof.
  induction c as [|y c IH]; intros Hk; [done|].
  rewrite fmap_cons in Hk. apply not_elem_of_cons in Hk as [Hy Hk].
  rewrite filter_cons. destruct (decide (key y = k)); [congruence|].
  by apply IH.
Qed.

(** With unique keys, a key that is present labels exactly one record. *)
Lemma key_unique_count (k : string) (c : list A) (i : nat) (x : A) :
  NoDup (key <$> c) -> c !! i = Some x -> key x = k ->
  length (filter (fun y => key y = k) c) = 1%nat.
Proof.
  revert i. induction c as [|y c IH]; intros i Hnd Hi Hk; [done|].
  rewrite fmap_cons in Hnd. apply NoDup_cons in Hnd as [Hy Hnd].
  rewrite filter_cons. destruct (decide (key y = k)) as [Hyk|Hyk].
  - rewrite filter_key_absent; [done|]. by rewrite <- Hyk.
  - destruct i as [|i]; simpl in Hi; [congruence|]. by eapply IH.
Qed.

End CollectionFacts.

(** ** The builder: parameters *)

Lemma append_absent (name : string) (v : value) (w : World) :
  Collection.get Append.name name (appends (self w)) = None ->
  append name v w
  = (Return This,
     with_appends w
       (appends (self w)
          ++ [ {| Append.name := name; Append.value := v |} ])).
Proof. intros Hn. unfold_methods. simpl. by rewrite Hn. Qed.

Lemma append_present (name : string) (v : value) (w : World) :
  is_Some (Collection.get Append.name name (appends (self w))) ->
  append name v w
  = (Throw (DuplicateVariableException
              ("Variable " +:+ quoted name +:+ " has already been appended!")),
     w).
Proof.
  intros [p Hp]. unfold_methods. simpl. rewrite Hp. by destruct w.
Qed.

Lemma updateVariable_present (name : string) (v : value) (w : World)
  (i : nat) (item : Append.t) :
  Collection.get Append.name name (appends (self w)) = Some (i, item) ->
  updateVariable name v w
  = (Return (Val VUndefined),
     with_appends w
       (<[i := {| Append.name := name; Append.value := v |}]>
          (appends (self w)))).
Proof.
  intros Hg. unfold_methods. simpl. rewrite Hg. simpl. rewrite Hg. simpl.
  apply get_Some_key in Hg as [_ Hk]. by rewrite Hk.
Qed.

Lemma updateVariable_absent (name : string) (v : value) (w : World) :
  Collection.get Append.name name (appends (self w)) = None ->
  updateVariable name v w
  = (Throw (UnknownVariableException
              ("Cannot update unknown variable with name " +:+ quoted name
               +:+ "!")),
     w).
Proof. intros Hn. unfold_methods. simpl. rewrite Hn. by destruct w. Qed.

(** C5: [append] raises DuplicateVariableException exactly when a parameter
    of that name is stored, and otherwise adds the parameter at the end;
    [updateVariable] raises UnknownVariableException exactly when no
    parameter of that name is stored, and otherwise changes the value of the
    stored one in place; a call that raises leaves heap and builder as they
    were. *)
Theorem append_updateVariable_errors (name : string) (v : value) (w : World) :
  let stored := exists item, item ∈ appends (self w) /\ Append.name item = name in
  ((exists msg, fst (append name v w) = Throw (DuplicateVariableException msg))
   <-> stored)
  /\ (stored -> snd (append name v w) = w)
  /\ (~ stored ->
      append name v w
      = (Return This,
         with_appends w
           (appends (self w)
              ++ [ {| Append.name := name; Append.value := v |} ])))
  /\ ((exists msg,
         fst (updateVariable name v w) = Throw (UnknownVariableException msg))
      <-> ~ stored)
  /\ (~ stored -> snd (updateVariable name v w) = w)
  /\ (stored ->
      exists i item,
        Collection.get Append.name name (appends (self w)) = Some (i, item)
        /\ updateVariable name v w
           = (Return (Val VUndefined),
              with_appends w
                (<[i := {| Append.name := name; Append.value := v |}]>
                   (appends (self w))))).
Proof.
  intros stored.
  assert (Hs : stored <-> is_Some (Collection.get Append.name name (appends (self w))))
    by (symmetry; apply get_is_Some).
  assert (Hn : ~ stored <-> Collection.get Append.name name (appends (self w)) = None)
    by (symmetry; apply get_None).
  split; [|split; [|split; [|split; [|split]]]].
  - split.
    + intros [msg Hm]. apply Hs.
      destruct (Collection.get Append.name name (appends (self w))) eqn:Hg;
        [done|].
      by rewrite (append_absent _ _ _ Hg) in Hm.
    + intros H. apply Hs in H. rewrite (append_present _ _ _ H). by eexists.
  - intros H. apply Hs in H. by rewrite (append_present _ _ _ H).
  - intros H. apply Hn in H. by apply append_absent.
  - split.
    + intros [msg Hm]. apply Hn.
      destruct (Collection.get Append.name name (appends (self w)))
        as [[i item]|] eqn:Hg; [|done].
      by rewrite (updateVariable_present _ _ _ _ _ Hg) in Hm.
    + intros H. apply Hn in H. rewrite (updateVariable_absent _ _ _ H).
      by eexists.
  - intros H. apply Hn in H. by rewrite (updateVariable_absent _ _ _ H).
  - intros H. apply Hs in H. destruct H as [[i item] Hg].
    exists i, item. split; [done|].
    by apply (updateVariable_present _ _ _ _ _ Hg).
Qed.

(** ** The builder: pagination *)

Lemma currentPage_present (w : World) (i : nat) (item : Append.t) :
  Collection.get Append.name "page" (appends (self w)) = Some (i, item) ->
  currentPage w = (Return (Append.value item), w).
Proof. intros Hg. unfold_methods. simpl. by rewrite Hg. Qed.

Lemma setPage_present (page : value) (w : World) (i : nat) (item : Append.t) :
  Collection.get Append.name "page" (appends (self w)) = Some (i, item) ->
  setPage page w
  = (Return This,
     with_appends w
       (<[i := {| Append.name := "page"; Append.value := page |}]>
          (appends (self w)))).
Proof.
  intros Hg. unfold_methods. simpl. rewrite Hg. simpl.
  apply get_Some_key in Hg as [_ Hk]. by rewrite Hk.
Qed.

Lemma setPage_absent (page : value) (w : World) :
  Collection.get Append.name "page" (appends (self w)) = None ->
  setPage page w = (Throw TypeError, w).
Proof. intros Hg. unfold_methods. simpl. by rewrite Hg. Qed.

Lemma incrementPage_present (w : World) (i : nat) (item : Append.t) :
  Collection.get Append.name "page" (appends (self w)) = Some (i, item) ->
  incrementPage w
  = (Return This,
     with_appends w
       (<[i := {| Append.name := "page";
                  Append.value := add (mem w) (Append.value item) (VNum 1) |}]>
          (appends (self w)))).
Proof.
  intros Hg. unfold incrementPage, bind.
  rewrite (currentPage_present _ _ _ Hg). unfold memory. simpl.
  by rewrite (setPage_present _ _ _ _ Hg).
Qed.

Lemma decrementPage_present (w : World) (i : nat) (item : Append.t) :
  Collection.get Append.name "page" (appends (self w)) = Some (i, item) ->
  decrementPage w
  = (Return This,
     with_appends w
       (<[i := {| Append.name := "page";
                  Append.value := sub (mem w) (Append.value item) (VNum 1) |}]>
          (appends (self w)))).
Proof.
  intros Hg. unfold decrementPage, bind.
  rewrite (currentPage_present _ _ _ Hg). unfold memory. simpl.
  by rewrite (setPage_present _ _ _ _ Hg).
Qed.

Lemma page_absent (w : World) :
  Collection.get Append.name "page" (appends (self w)) = None ->
  currentPage w = (Throw TypeError, w)
  /\ incrementPage w = (Throw TypeError, w)
  /\ decrementPage w = (Throw TypeError, w).
Proof. intros Hg. unfold_methods. simpl. repeat (rewrite Hg; simpl). done. Qed.

(** A page that is a safe integer moves by exactly one in either
    direction. *)
Lemma page_step (w : World) (n : Z) :
  safe_integer n ->
  fst (currentPage w) = Return (VNum n) ->
  fst (incrementPage w) = Return This
  /\ fst (currentPage (snd (incrementPage w))) = Return (VNum (n + 1))
  /\ fst (decrementPage w) = Return This
  /\ fst (currentPage (snd (decrementPage w))) = Return (VNum (n - 1)).
Proof.
  intros _ Hp.
  destruct (Collection.get Append.name "page" (appends (self w)))
    as [[i item]|] eqn:Hg.
  - rewrite (currentPage_present _ _ _ Hg) in Hp. simpl in Hp.
    injection Hp as Hv.
    rewrite (incrementPage_present _ _ _ Hg), (decrementPage_present _ _ _ Hg).
    simpl. rewrite Hv.
    split; [done|]. split; [|split; [done|]].
    + erewrite currentPage_present;
        [|simpl; by eapply get_insert_same]. done.
    + erewrite currentPage_present;
        [|simpl; by eapply get_insert_same]. done.
  - destruct (page_absent _ Hg) as (Hc & _). by rewrite Hc in Hp.
Qed.

(** C9: a new builder is on page 1; [incrementPage] takes it to page 2;
    two [decrementPage] calls from page 1 lead to page -1; from any page
    that is a safe integer, the integers on which the sums of JavaScript are
    exact, the two methods move by exactly one, whatever the sign: no lower
    bound is enforced. *)
Theorem page_arithmetic (m : ModelDescriptor) (h : heap) :
  let w := {| mem := h; self := new m |} in
  fst (currentPage w) = Return (VNum 1)
  /\ fst (currentPage (snd (incrementPage w))) = Return (VNum 2)
  /\ fst (currentPage (snd (decrementPage (snd (decrementPage w)))))
     = Return (VNum (-1))
  /\ (forall w1 n,
        safe_integer n ->
        fst (currentPage w1) = Return (VNum n) ->
        fst (currentPage (snd (incrementPage w1))) = Return (VNum (n + 1))
        /\ fst (currentPage (snd (decrementPage w1))) = Return (VNum (n - 1))).
Proof.
  intros w. split; [reflexivity|]. split; [reflexivity|].
  split; [reflexivity|]. intros w1 n Hn Hp.
  destruct (page_step w1 n Hn Hp) as (_ & Hi & _ & Hd). done.
Qed.

(** ** The builder: serialisation *)

(** C4: the query string of a newly constructed builder is
    [?limit=15&page=1], whatever the heap and the model descriptor. *)
Theorem toQueryString_fresh (m : ModelDescriptor) (h : heap) :
  fst (toQueryString {| mem := h; self := new m |})
  = Return "?limit=15&page=1".
Proof. reflexivity. Qed.

(** C3 (the code departs from it): on a new builder whose [limit] has been
    updated to the array [['a', 'b']], the second pair is written after a
    [?] and not after an [&]. *)
Theorem toQueryString_array_first (m : ModelDescriptor) :
  let w := {| mem := [OArray [VStr "a"; VStr "b"]]; self := new m |} in
  fst (updateVariable "limit" (VRef 0%nat) w) = Return (Val VUndefined)
  /\ fst (toQueryString (snd (updateVariable "limit" (VRef 0%nat) w)))
     = Return "?limit[]=a?limit[]=b&page=1".
Proof. split; reflexivity. Qed.

(** An empty array in first position leaves the string without any [?]. *)
Lemma toQueryString_empty_array_first (m : ModelDescriptor) :
  let w := {| mem := [OArray []]; self := new m |} in
  fst (toQueryString (snd (updateVariable "limit" (VRef 0%nat) w)))
  = Return "&page=1".
Proof. reflexivity. Qed.

(** The examples of section 8. *)
Lemma toQueryString_where (m : ModelDescriptor) :
  let w := {| mem := []; self := new m |} in
  fst (toQueryString (snd (where_ "status" (VStr "active") w)))
  = Return "?filters[status][]=active&limit=15&page=1".
Proof. reflexivity. Qed.

Lemma toQueryString_tags (m : ModelDescriptor) :
  let w := {| mem := [OArray [VStr "a"; VStr "b"]]; self := new m |} in
  fst (toQueryString (snd (append "tags" (VRef 0%nat) w)))
  = Return "?limit=15&page=1&tags[]=a&tags[]=b".
Proof. reflexivity. Qed.

(** ** The builder: what the mutators return *)

(** C7 (the code departs from it): [updateVariable] has no [return]
    statement; on a new builder, [updateVariable('limit', v)] succeeds and
    hands back [undefined], not the builder. *)
Theorem updateVariable_returns_undefined (m : ModelDescriptor) (h : heap)
  (v : value) :
  updateVariable "limit" v {| mem := h; self := new m |}
  = (Return (Val VUndefined),
     {| mem := h;
        self := {| model := m;
                   _constraints := [];
                   appends :=
                     [ {| Append.name := "limit"; Append.value := v |};
                       {| Append.name := "page"; Append.value := VNum 1 |} ]
                |} |}).
Proof. reflexivity. Qed.

(** [updateVariable] never hands back the builder. *)
Lemma updateVariable_never_this (name : string) (v : value) (w : World) :
  fst (updateVariable name v w) <> Return This.
Proof.
  destruct (Collection.get Append.name name (appends (self w)))
    as [[i item]|] eqn:Hg.
  - by rewrite (updateVariable_present _ _ _ _ _ Hg).
  - by rewrite (updateVariable_absent _ _ _ Hg).
Qed.

(** The other seven mutators hand back the builder whenever they return. *)
Lemma fluent_mutators_return_this (w : World) (r : retval) :
  (forall f v, fst (where_ f v w) = Return r -> r = This)
  /\ (forall os, fst (orderBy os w) = Return r -> r = This)
  /\ (forall v, fst (setLimit v w) = Return r -> r = This)
  /\ (forall p, fst (setPage p w) = Return r -> r = This)
  /\ (fst (incrementPage w) = Return r -> r = This)
  /\ (fst (decrementPage w) = Return r -> r = This)
  /\ (forall n v, fst (append n v w) = Return r -> r = This).
Proof.
  repeat split; intros; unfold_methods; simpl in *;
    repeat match goal with
      | H : context [match ?x with _ => _ end] |- _ =>
          destruct x eqn:?; simpl in *
      end; congruence.
Qed.

(** ** Response dispatch *)

(** C1 (the code departs from it): the 422 handler of [get] passes the
    constant 500 to the error callback. *)
Theorem get_422_reports_500 (w : World) (success : callback) (f : string)
  (h : heap) (response : value) :
  dispatch (get success (Function f)) w 422 h response
  = error_call f response 500.
Proof. reflexivity. Qed.

(** Everywhere else the error callback receives the response and the status
    of that response, and [deleteResults] reports a 403 as [(null, 403)]. *)
Lemma error_callback_status (w : World) (success : callback) (f : string)
  (attributes : value) (h : heap) (response : value) :
  dispatch (get success (Function f)) w 500 h response
  = error_call f response 500
  /\ (forall code,
        code = 422 \/ code = 500 ->
        dispatch (update attributes success (Function f)) w code h response
        = error_call f response code
        /\ dispatch (insert attributes success (Function f)) w code h response
           = error_call f response code
        /\ dispatch (deleteResults success (Function f)) w code h response
           = error_call f response code)
  /\ dispatch (deleteResults success (Function f)) w 403 h response
     = error_call f VNull 403.
Proof.
  split; [reflexivity|]. split; [|reflexivity].
  intros code [-> | ->]; repeat split; reflexivity.
Qed.

(** C2 (the code departs from it): the 200 handler of [get] calls [success]
    without testing it; with the callbacks left out and the payload
    [{data: []}], the dispatch ends in a TypeError. *)
Theorem get_200_without_success_raises (w : World) :
  let h := [OArray []; OObject [("data", VRef 0%nat)]] in
  dispatch (get (NotFunction VUndefined) (NotFunction VUndefined)) w 200 h
    (VRef 1%nat)
  = {| calls := []; raised := Some TypeError |}.
Proof. reflexivity. Qed.

(** Everywhere else a dispatch without callbacks is silent. *)
Lemma omitted_callbacks_silent (w : World) (s e : value) (attributes : value)
  (h : heap) (response : value) (status : Z) :
  status = 200 \/ status = 403 \/ status = 422 \/ status = 500 ->
  (status <> 200 ->
   dispatch (get (NotFunction s) (NotFunction e)) w status h response = silent)
  /\ dispatch (update attributes (NotFunction s) (NotFunction e)) w status h
       response = silent
  /\ dispatch (insert attributes (NotFunction s) (NotFunction e)) w status h
       response = silent
  /\ dispatch (deleteResults (NotFunction s) (NotFunction e)) w status h
       response = silent.
Proof.
  intros [-> | [-> | [-> | ->]]]; repeat split; try reflexivity; done.
Qed.

(** ** The builder: constraints *)

Lemma where_absent (f : string) (v : value) (w : World) :
  Collection.get Constraint.filter f (_constraints (self w)) = None ->
  where_ f v w
  = (Return This,
     with_constraints w
       (_constraints (self w)
          ++ [ {| Constraint.filter := f; Constraint.value := v |} ])).
Proof. intros Hg. unfold_methods. simpl. by rewrite Hg. Qed.

Lemma where_present (f : string) (v : value) (w : World) (i : nat)
  (c : Constraint.t) :
  Collection.get Constraint.filter f (_constraints (self w)) = Some (i, c) ->
  where_ f v w
  = (Return This,
     with_constraints w
       (<[i := {| Constraint.filter := f; Constraint.value := v |}]>
          (_constraints (self w)))).
Proof.
  intros Hg. unfold_methods. simpl. rewrite Hg. simpl.
  apply get_Some_key in Hg as [_ Hk]. by rewrite Hk.
Qed.

(** What one [where] does to the store: the filter ends up at the position
    it had, or at the end when it is new, and the keys stay unique. *)
Lemma where_effect (f : string) (v : value) (w : World) :
  NoDup (Constraint.filter <$> _constraints (self w)) ->
  let position :=
    match Collection.get Constraint.filter f (_constraints (self w)) with
    | Some (j, _) => j
    | None => length (_constraints (self w))
    end in
  let w' := snd (where_ f v w) in
  fst (where_ f v w) = Return This
  /\ Collection.get Constraint.filter f (_constraints (self w'))
     = Some (position, {| Constraint.filter := f; Constraint.value := v |})
  /\ NoDup (Constraint.filter <$> _constraints (self w'))
  /\ (is_Some (Collection.get Constraint.filter f (_constraints (self w))) ->
      length (_constraints (self w')) = length (_constraints (self w))).
Proof.
  intros Hnd. simpl.
  destruct (Collection.get Constraint.filter f (_constraints (self w)))
    as [[i c]|] eqn:Hg.
  - rewrite (where_present _ _ _ _ _ Hg). simpl.
    split; [done|]. split; [by eapply get_insert_same|]. split.
    + destruct (get_Some_key _ _ _ _ _ Hg) as [Hi Hk].
      by rewrite (keys_insert _ _ _ _ _ Hi).
    + intros _. by rewrite length_insert.
  - rewrite (where_absent _ _ _ Hg). simpl.
    split; [done|]. split; [by apply get_push_absent|]. split.
    + by eapply (keys_push_NoDup Constraint.filter f).
    + by intros [? ?].
Qed.

(** C6: after [where(f, v1)] and [where(f, v2)], exactly one constraint is
    keyed by [f]; its value is [v2]; it sits at the position [f] occupied
    after the first call, which is the position [f] had before when it was
    already set; the second call adds no record. *)
Theorem where_last_write_wins (f : string) (v1 v2 : value) (w : World) :
  NoDup (Constraint.filter <$> _constraints (self w)) ->
  let w1 := snd (where_ f v1 w) in
  let w2 := snd (where_ f v2 w1) in
  let position :=
    match Collection.get Constraint.filter f (_constraints (self w)) with
    | Some (j, _) => j
    | None => length (_constraints (self w))
    end in
  fst (where_ f v1 w) = Return This
  /\ fst (where_ f v2 w1) = Return This
  /\ Collection.get Constraint.filter f (_constraints (self w1))
     = Some (position, {| Constraint.filter := f; Constraint.value := v1 |})
  /\ Collection.get Constraint.filter f (_constraints (self w2))
     = Some (position, {| Constraint.filter := f; Constraint.value := v2 |})
  /\ length (filter (fun c => Constraint.filter c = f) (_constraints (self w2)))
     = 1%nat
  /\ length (_constraints (self w2)) = length (_constraints (self w1)).
Proof.
  intros Hnd w1 w2 position.
  destruct (where_effect f v1 w Hnd) as (Hr1 & Hg1 & Hnd1 & _).
  fold w1 position in Hg1, Hnd1.
  destruct (where_effect f v2 w1 Hnd1) as (Hr2 & Hg2 & Hnd2 & Hlen).
  fold w2 in Hg2, Hnd2, Hlen. rewrite Hg1 in Hg2, Hlen.
  split; [done|]. split; [done|]. split; [done|]. split; [done|]. split.
  - destruct (get_Some_key _ _ _ _ _ Hg2) as [Hi Hk].
    by eapply key_unique_count.
  - by apply Hlen.
Qed.

Lemma where_last_write_wins_witness :
  let w := {| mem := []; self := new {| url := "/users" |} |} in
  let w1 := snd (where_ "status" (VStr "active") w) in
  let w2 := snd (where_ "status" (VStr "closed") w1) in
  NoDup (Constraint.filter <$> _constraints (self w))
  /\ Collection.get Constraint.filter "status" (_constraints (self w2))
     = Some (0%nat, {| Constraint.filter := "status";
                       Constraint.value := VStr "closed" |})
  /\ length (filter (fun c => Constraint.filter c = "status")
               (_constraints (self w2))) = 1%nat.
Proof.
  intros w w1 w2.
  assert (Hnd : NoDup (Constraint.filter <$> _constraints (self w)))
    by (simpl; constructor).
  split; [exact Hnd|].
  destruct (where_last_write_wins "status" (VStr "active") (VStr "closed")
              w Hnd) as (_ & _ & _ & Hg & Hc & _).
  split; [exact Hg | exact Hc].
Defined.

(** ** The builder: ordering and limit *)

Lemma orderBy_present (os : list value) (w : World) (i : nat)
  (item : Append.t) :
  Collection.get Append.name "order" (appends (self w)) = Some (i, item) ->
  orderBy os w
  = (Return This,
     with_appends (allocated w (OArray os))
       (<[i := {| Append.name := "order";
                  Append.value := VRef (length (mem w)) |}]>
          (appends (self w)))).
Proof.
  intros Hg. unfold orderBy, bind, alloc, hasVariable, this, ret. simpl.
  rewrite Hg. simpl.
  by rewrite (updateVariable_present "order" _ (allocated w (OArray os)) i item).
Qed.

Lemma orderBy_absent (os : list value) (w : World) :
  Collection.get Append.name "order" (appends (self w)) = None ->
  orderBy os w
  = (Return This,
     with_appends (allocated w (OArray os))
       (appends (self w)
          ++ [ {| Append.name := "order";
                  Append.value := VRef (length (mem w)) |} ])).
Proof.
  intros Hg. unfold orderBy, bind, alloc, hasVariable, this, ret. simpl.
  rewrite Hg. simpl.
  by rewrite (append_absent "order" _ (allocated w (OArray os))).
Qed.

Lemma setLimit_present (v : value) (w : World) (i : nat) (item : Append.t) :
  Collection.get Append.name "limit" (appends (self w)) = Some (i, item) ->
  setLimit v w
  = (Return This,
     with_appends w
       (<[i := {| Append.name := "limit"; Append.value := v |}]>
          (appends (self w)))).
Proof.
  intros Hg. unfold setLimit, bind, hasVariable, this, ret. simpl.
  rewrite Hg. simpl. by rewrite (updateVariable_present "limit" _ w i item).
Qed.

Lemma setLimit_absent (v : value) (w : World) :
  Collection.get Append.name "limit" (appends (self w)) = None ->
  setLimit v w
  = (Return This,
     with_appends w
       (appends (self w)
          ++ [ {| Append.name := "limit"; Append.value := v |} ])).
Proof.
  intros Hg. unfold setLimit, bind, hasVariable, this, ret. simpl.
  rewrite Hg. simpl. by rewrite (append_absent "limit" _ w).
Qed.

Lemma getLimit_setLimit (m : ModelDescriptor) (h : heap) :
  let w := {| mem := h; self := new m |} in
  fst (getLimit w) = Return (VNum 15)
  /\ fst (getLimit (snd (setLimit (VNum 50) w))) = Return (VNum 50).
Proof. split; reflexivity. Qed.

(** C10: [orderBy] puts its arguments into a new array and makes that array
    the value of the [order] parameter, whatever was stored before; after
    [orderBy()] without arguments the parameter exists and [orderingBy()]
    hands back an (other) empty array, not [null]. *)
Theorem orderBy_stores_arguments (os : list value) (w : World) (fuel : nat) :
  let w1 := snd (orderBy os w) in
  let w0 := snd (orderBy [] w) in
  let arr := length (mem w) in
  (fst (orderBy os w) = Return This
   /\ mem w1 = mem w ++ [OArray os]
   /\ mem w1 !! arr = Some (OArray os)
   /\ _constraints (self w1) = _constraints (self w)
   /\ exists i,
       Collection.get Append.name "order" (appends (self w1))
       = Some (i, {| Append.name := "order"; Append.value := VRef arr |}))
  /\ (mem w0 !! arr = Some (OArray [])
      /\ fst (getVariable "order" VNull w0) = Return (VRef arr)
      /\ fst (hasVariable "order" w0) = Return true
      /\ orderingBy (S fuel) w0
         = (Return (VRef (S arr)),
            {| mem := mem w0 ++ [OArray []]; self := self w0 |})
      /\ (mem w0 ++ [OArray []]) !! S arr = Some (OArray [])).
Proof.
  assert (Hgen : forall os',
    let w' := snd (orderBy os' w) in
    fst (orderBy os' w) = Return This
    /\ mem w' = mem w ++ [OArray os']
    /\ mem w' !! length (mem w) = Some (OArray os')
    /\ _constraints (self w') = _constraints (self w)
    /\ exists i,
        Collection.get Append.name "order" (appends (self w'))
        = Some (i, {| Append.name := "order";
                      Append.value := VRef (length (mem w)) |})).
  { intros os'. simpl.
    destruct (Collection.get Append.name "order" (appends (self w)))
      as [[i item]|] eqn:Hg.
    - rewrite (orderBy_present _ _ _ _ Hg). simpl.
      repeat split; [by rewrite list_lookup_middle|].
      exists i. by eapply get_insert_same.
    - rewrite (orderBy_absent _ _ Hg). simpl.
      repeat split; [by rewrite list_lookup_middle|].
      exists (length (appends (self w))). by apply get_push_absent. }
  intros w1 w0 arr. split; [apply Hgen|].
  destruct (Hgen []) as (_ & Hm & Hl & _ & i & Hg). fold w0 arr in Hm, Hl, Hg.
  assert (Hhas : hasVariable "order" w0 = (Return true, w0)).
  { unfold hasVariable, bind, this, ret. simpl. by rewrite Hg. }
  assert (Hget : getVariable "order" VNull w0 = (Return (VRef arr), w0)).
  { unfold getVariable, bind. rewrite Hhas.
    unfold append_value, bind, this, ret. simpl. by rewrite Hg. }
  split; [done|]. split; [by rewrite Hget|]. split; [by rewrite Hhas|].
  assert (Hlen : length (mem w0) = S arr)
    by (rewrite Hm, length_app; simpl; lia).
  split.
  - unfold orderingBy, bind. rewrite Hhas, Hget.
    unfold run_clone, clone. cbn [clone_from]. rewrite lookup_empty, Hl.
    simpl. by rewrite insert_last, Hlen.
  - rewrite <- Hlen. by apply list_lookup_middle.
Qed.

(** ** The builder: copies handed out by the readers *)

Lemma read_ref_allocated (fuel : nat) (h : heap) (l : loc) (t : tree) :
  read fuel h (VRef l) = Some t ->
  (l < length h)%nat /\ instanceof_Object h (VRef l) = true.
Proof.
  destruct fuel as [|fuel]; simpl; [done|].
  destruct (h !! l) as [o|] eqn:Hl; [|done].
  intros _. split; [by eapply lookup_lt_Some | done].
Qed.

Lemma clone_result (fuel : nat) (h : heap) (v : value)
  (enough : nat -> copies -> value -> Prop) :
  clone_total h enough fuel ->
  enough fuel ∅ v ->
  exists v' h' memo',
    clone fuel h v = Some (v', h')
    /\ cloned h ∅ h memo' h'
    /\ known memo' v
    /\ v' = image memo' v.
Proof.
  intros Htotal He.
  destruct (Htotal ∅ h v (copying_start h) He)
    as (v' & h' & memo' & Hc & Hcl & Hk & Hv).
  exists v', h', memo'. unfold clone. by rewrite Hc.
Qed.

(** With enough fuel, the copy of a stored array or object is a new
    location that looks like the stored one, and writing through it leaves
    every earlier cell alone. *)
Lemma run_clone_copy (fuel : nat) (w : World) (l : loc)
  (enough : nat -> copies -> value -> Prop) :
  clone_total (mem w) enough fuel ->
  enough fuel ∅ (VRef l) ->
  (l < length (mem w))%nat ->
  deep_copy_of fuel (VRef l) w (run_clone fuel (VRef l) w)
  /\ looks_like (VRef l) w (run_clone fuel (VRef l) w).
Proof.
  intros Htotal He Hl.
  destruct (clone_result _ _ _ _ Htotal He)
    as (v' & h' & memo' & Hc & [Hcp _ _ Hframe Hnew] & [l' Hl'] & ->).
  assert (Hall : forall k k', memo' !! k = Some k' ->
                              copied (mem w) h' memo' k k').
  { intros k k' Hk. by apply Hnew. }
  assert (Himg : image memo' (VRef l) = VRef l') by (simpl; by rewrite Hl').
  pose proof (copying_memo _ _ _ Hcp _ _ Hl') as [_ [Hge _]].
  unfold run_clone. rewrite Hc, Himg.
  assert (Hknown : known memo' (VRef l)) by (by exists l').
  split.
  - exists l', h'. split; [done|].
    split; [intros [= ->]; lia|].
    split; [rewrite <- Himg; by apply copy_read|].
    split; [done|].
    intros m o Hreach.
    assert (Hm : (length (mem w) <= m)%nat)
      by (eapply reachable_new; [exact Hcp | exact Hreach | done]).
    assert (Hold : forall k o', mem w !! k = Some o' ->
                                <[m := o]> h' !! k = Some o').
    { intros k o' Hk. pose proof (lookup_lt_Some _ _ _ Hk).
      rewrite list_lookup_insert_ne by lia. by apply Hcp. }
    split.
    + intros k Hk. rewrite list_lookup_insert_ne by lia. by apply Hframe.
    + intros n v t'. by apply read_mono.
  - exists (VRef l'). split; [done|]. intros depth. simpl.
    rewrite <- Himg. by apply copy_look.
Qed.

Lemma clone_deep_copy (fuel : nat) (w : World) (stored : value) (t : tree) :
  is_ref stored = true ->
  read fuel (mem w) stored = Some t ->
  deep_copy_of fuel stored w (run_clone fuel stored w).
Proof.
  intros Href Hr. destruct stored as [| | | | | |l]; try done.
  destruct (read_ref_allocated _ _ _ _ Hr) as [Hl _].
  apply (run_clone_copy fuel w l (enough_depth (mem w)));
    [apply depth_clone | by exists t | done].
Qed.

Lemma getConstraintValue_unset (fuel : nat) (f : string) (w : World) :
  Collection.get Constraint.filter f (_constraints (self w)) = None ->
  getConstraintValue fuel f w = (Return VNull, w).
Proof. intros Hg. unfold_methods. simpl. by rewrite Hg. Qed.

Lemma getConstraintValue_primitive (fuel : nat) (f : string) (w : World)
  (i : nat) (c : Constraint.t) :
  Collection.get Constraint.filter f (_constraints (self w)) = Some (i, c) ->
  is_ref (Constraint.value c) = false ->
  getConstraintValue fuel f w = (Return (Constraint.value c), w).
Proof.
  intros Hg Hp. unfold_methods. simpl. rewrite Hg.
  by destruct (Constraint.value c).
Qed.

Lemma orderingBy_unset (fuel : nat) (w : World) :
  Collection.get Append.name "order" (appends (self w)) = None ->
  orderingBy fuel w = (Return VNull, w).
Proof. intros Hg. unfold_methods. simpl. by rewrite Hg. Qed.

Lemma orderingBy_set (fuel : nat) (w : World) (j : nat) (a : Append.t) :
  Collection.get Append.name "order" (appends (self w)) = Some (j, a) ->
  orderingBy fuel w = run_clone fuel (Append.value a) w.
Proof.
  intros Hg. unfold_methods. simpl. rewrite Hg. simpl. rewrite Hg. simpl.
  rewrite Hg. done.
Qed.

Lemma getConstraintValue_object (fuel : nat) (f : string) (w : World)
  (i : nat) (c : Constraint.t) (l : loc) :
  Collection.get Constraint.filter f (_constraints (self w)) = Some (i, c) ->
  Constraint.value c = VRef l ->
  (l < length (mem w))%nat ->
  getConstraintValue fuel f w = run_clone fuel (VRef l) w.
Proof.
  intros Hg Hv Hl. unfold getConstraintValue, bind, this, memory, ret.
  simpl. rewrite Hg, Hv. simpl.
  by destruct (lookup_lt_is_Some_2 _ _ Hl) as [o ->].
Qed.

(** C8: a filter that is unset reads as [null], and so does the ordering
    when there is none.  For every stored array or object, cyclic or not,
    in a heap without dangling locations and with a unit of fuel for each
    of its cells, [getConstraintValue(f)], when the constraint of [f] holds
    it, and [orderingBy()], when the ordering holds it, hand back a location
    other than the stored one, which looks like the stored one down to every
    depth; the builder is unchanged, and a write to any cell reachable from
    the result leaves every earlier cell, hence the content of every stored
    value, as it was. *)
Theorem readers_hand_out_deep_copies (fuel : nat) (w : World) :
  (forall f,
     Collection.get Constraint.filter f (_constraints (self w)) = None ->
     getConstraintValue fuel f w = (Return VNull, w))
  /\ (Collection.get Append.name "order" (appends (self w)) = None ->
      orderingBy fuel w = (Return VNull, w))
  /\ (heap_closed (mem w) = true ->
      (length (mem w) < fuel)%nat ->
      (forall f i c l,
         Collection.get Constraint.filter f (_constraints (self w))
         = Some (i, c) ->
         Constraint.value c = VRef l ->
         (l < length (mem w))%nat ->
         deep_copy_of fuel (VRef l) w (getConstraintValue fuel f w)
         /\ looks_like (VRef l) w (getConstraintValue fuel f w))
      /\ (forall j a l,
            Collection.get Append.name "order" (appends (self w))
            = Some (j, a) ->
            Append.value a = VRef l ->
            (l < length (mem w))%nat ->
            deep_copy_of fuel (VRef l) w (orderingBy fuel w)
            /\ looks_like (VRef l) w (orderingBy fuel w))).
Proof.
  split; [intros f; apply getConstraintValue_unset|].
  split; [apply orderingBy_unset|].
  intros Hclosed Hfuel.
  assert (Hcopy : forall l, (l < length (mem w))%nat ->
            deep_copy_of fuel (VRef l) w (run_clone fuel (VRef l) w)
            /\ looks_like (VRef l) w (run_clone fuel (VRef l) w)).
  { intros l Hl.
    apply (run_clone_copy fuel w l (enough_cells (mem w)));
      [apply cells_clone | | done].
    split; [done|]. split; [done|]. rewrite map_size_empty. lia. }
  split.
  - intros f i c l Hg Hv Hl.
    rewrite (getConstraintValue_object _ _ _ _ _ _ Hg Hv Hl). by apply Hcopy.
  - intros j a l Hg Hv Hl.
    rewrite (orderingBy_set _ _ _ _ Hg), Hv. by apply Hcopy.
Qed.

Lemma readers_hand_out_deep_copies_witness :
  getConstraintValue 4 "tags" sample_world
  = (Return (VRef 3%nat),
     {| mem := mem sample_world ++ [OArray [VStr "a"; VStr "b"]];
        self := self sample_world |})
  /\ deep_copy_of 4 (VRef 0%nat) sample_world
       (getConstraintValue 4 "tags" sample_world)
  /\ deep_copy_of 4 (VRef 2%nat) sample_world (orderingBy 4 sample_world)
  /\ getConstraintValue 4 "status" sample_world = (Return VNull, sample_world)
  /\ getConstraintValue 3 "loop" cyclic_world
     = (Return (VRef 2%nat),
        {| mem := mem cyclic_world
                    ++ [OArray [VRef 3%nat]; OObject [("up", VRef 2%nat)]];
           self := self cyclic_world |})
  /\ deep_copy_of 3 (VRef 0%nat) cyclic_world
       (getConstraintValue 3 "loop" cyclic_world)
  /\ looks_like (VRef 0%nat) cyclic_world
       (getConstraintValue 3 "loop" cyclic_world)
  /\ orderingBy 3 cyclic_world = (Return VNull, cyclic_world).
Proof.
  destruct (readers_hand_out_deep_copies 4 sample_world)
    as (Hnull & _ & Hcopies).
  destruct (Hcopies eq_refl ltac:(simpl; lia)) as [Hc Ho].
  destruct (readers_hand_out_deep_copies 3 cyclic_world)
    as (_ & Hnone & Hcopies').
  destruct (Hcopies' eq_refl ltac:(simpl; lia)) as [Hc' _].
  split; [reflexivity|].
  split; [exact (proj1 (Hc "tags" 0%nat
                          {| Constraint.filter := "tags";
                             Constraint.value := VRef 0%nat |} 0%nat
                          eq_refl eq_refl ltac:(simpl; lia)))|].
  split; [exact (proj1 (Ho 2%nat
                          {| Append.name := "order";
                             Append.value := VRef 2%nat |} 2%nat
                          eq_refl eq_refl ltac:(simpl; lia)))|].
  split; [exact (Hnull "status" eq_refl)|].
  split; [reflexivity|].
  pose proof (Hc' "loop" 0%nat
                {| Constraint.filter := "loop";
                   Constraint.value := VRef 0%nat |} 0%nat
                eq_refl eq_refl ltac:(simpl; lia)) as [Hd Hl].
  split; [exact Hd|]. split; [exact Hl|]. exact (Hnone eq_refl).
Defined.

(** ** The invariant holds of every builder the interface can produce *)

Lemma key_unique_new (m : ModelDescriptor) : key_unique (new m).
Proof.
  split; simpl; [constructor|].
  apply NoDup_cons. split; [|apply NoDup_singleton].
  rewrite list_elem_of_singleton. done.
Qed.

Lemma key_unique_insert (b b' : Builder) (n : string) (v : value) (i : nat)
  (item : Append.t) :
  key_unique b ->
  Collection.get Append.name n (appends b) = Some (i, item) ->
  _constraints b' = _constraints b ->
  appends b' = <[i := {| Append.name := n; Append.value := v |}]> (appends b) ->
  key_unique b'.
Proof.
  intros [Hc Ha] Hg Hc' Ha'. destruct (get_Some_key _ _ _ _ _ Hg) as [Hi Hk].
  split; [by rewrite Hc'|]. rewrite Ha'.
  by rewrite (keys_insert _ _ _ _ _ Hi).
Qed.

Lemma key_unique_push (b b' : Builder) (n : string) (v : value) :
  key_unique b ->
  Collection.get Append.name n (appends b) = None ->
  _constraints b' = _constraints b ->
  appends b' = appends b ++ [ {| Append.name := n; Append.value := v |} ] ->
  key_unique b'.
Proof.
  intros [Hc Ha] Hg Hc' Ha'. split; [by rewrite Hc'|]. rewrite Ha'.
  by eapply (keys_push_NoDup Append.name n).
Qed.

Lemma key_unique_perform (c : mutator) (w : World) :
  key_unique (self w) -> key_unique (self (snd (perform c w))).
Proof.
  intros Hu. destruct c as [f v|os|v|p| | |n v|n v]; simpl.
  - destruct Hu as [Hc Ha].
    destruct (where_effect f v w Hc) as (_ & _ & Hnd & _). split; [done|].
    destruct (Collection.get Constraint.filter f (_constraints (self w)))
      as [[i c]|] eqn:Hg.
    + by rewrite (where_present _ _ _ _ _ Hg).
    + by rewrite (where_absent _ _ _ Hg).
  - destruct (Collection.get Append.name "order" (appends (self w)))
      as [[i item]|] eqn:Hg.
    + rewrite (orderBy_present _ _ _ _ Hg).
      by eapply key_unique_insert.
    + rewrite (orderBy_absent _ _ Hg). by eapply key_unique_push.
  - destruct (Collection.get Append.name "limit" (appends (self w)))
      as [[i item]|] eqn:Hg.
    + rewrite (setLimit_present _ _ _ _ Hg). by eapply key_unique_insert.
    + rewrite (setLimit_absent _ _ Hg). by eapply key_unique_push.
  - destruct (Collection.get Append.name "page" (appends (self w)))
      as [[i item]|] eqn:Hg.
    + rewrite (setPage_present _ _ _ _ Hg). by eapply key_unique_insert.
    + by rewrite (setPage_absent _ _ Hg).
  - destruct (Collection.get Append.name "page" (appends (self w)))
      as [[i item]|] eqn:Hg.
    + rewrite (incrementPage_present _ _ _ Hg). by eapply key_unique_insert.
    + destruct (page_absent _ Hg) as (_ & -> & _). done.
  - destruct (Collection.get Append.name "page" (appends (self w)))
      as [[i item]|] eqn:Hg.
    + rewrite (decrementPage_present _ _ _ Hg). by eapply key_unique_insert.
    + destruct (page_absent _ Hg) as (_ & _ & ->). done.
  - destruct (Collection.get Append.name n (appends (self w)))
      as [[i item]|] eqn:Hg.
    + by rewrite append_present.
    + rewrite (append_absent _ _ _ Hg). by eapply key_unique_push.
  - destruct (Collection.get Append.name n (appends (self w)))
      as [[i item]|] eqn:Hg.
    + rewrite (updateVariable_present _ _ _ _ _ Hg).
      by eapply key_unique_insert.
    + by rewrite (updateVariable_absent _ _ _ Hg).
Qed.

(** Whatever the calls and whatever the heap they start in, the keys of both
    stores are unique. *)
Lemma key_unique_reachable (m : ModelDescriptor) (h : heap)
  (cs : list mutator) :
  key_unique (self (perform_all cs {| mem := h; self := new m |})).
Proof.
  unfold perform_all.
  assert (Hgen : forall w, key_unique (self w) ->
            key_unique (self (fold_left (fun w c => snd (perform c w)) cs w))).
  { induction cs as [|c cs IH]; intros w Hw; [done|].
    simpl. apply IH. by apply key_unique_perform. }
  apply Hgen. apply key_unique_new.
Qed.

(** ** Serialisation against the rules of section 4.4 *)

Lemma append_assoc (s1 s2 s3 : string) :
  (s1 +:+ s2) +:+ s3 = s1 +:+ (s2 +:+ s3).
Proof.
  induction s1 as [|c s1 IH]; [done|].
  change (String c ((s1 +:+ s2) +:+ s3) = String c (s1 +:+ (s2 +:+ s3))).
  by rewrite IH.
Qed.

Lemma append_empty_r (s : string) : s +:+ "" = s.
Proof.
  induction s as [|c s IH]; [done|].
  change (String c (s +:+ "") = String c s). by rewrite IH.
Qed.

Lemma prefixed_app (sep : string) (ps qs : list string) :
  prefixed sep (ps ++ qs) = prefixed sep ps +:+ prefixed sep qs.
Proof.
  induction ps as [|p ps IH]; simpl; [done|].
  by rewrite IH, !append_assoc.
Qed.

Lemma fold_emit {A : Type} (sep : string) (f : string -> A -> string)
  (g : A -> string) (xs : list A) (acc : string) :
  (forall acc x, f acc x = (acc +:+ sep) +:+ g x) ->
  fold_left f xs acc = acc +:+ prefixed sep (map g xs).
Proof.
  intros Hf. revert acc. induction xs as [|x xs IH]; intros acc; simpl.
  - by rewrite append_empty_r.
  - by rewrite IH, Hf, !append_assoc.
Qed.

Lemma visit_append_emit (h : heap) (acc : string) (first : bool)
  (item : Append.t) :
  visit_append h (acc, first) item
  = (acc +:+ prefixed (separator first) (spec_append_pairs h item), false).
Proof.
  unfold visit_append, spec_append_pairs.
  destruct (instanceof_Array h (Append.value item)).
  - f_equal. by apply fold_emit.
  - destruct (instanceof_Object h (Append.value item)).
    + f_equal. apply fold_emit. by intros acc' [key x].
    + f_equal. simpl. by rewrite append_empty_r, !append_assoc.
Qed.

Lemma visit_constraint_emit (h : heap) (acc : string) (first : bool)
  (c : Constraint.t) :
  visit_constraint h (acc, first) c
  = (acc +:+ prefixed (separator first) [spec_constraint_pair h c], false).
Proof.
  unfold visit_constraint, spec_constraint_pair. f_equal. simpl.
  by rewrite append_empty_r, !append_assoc.
Qed.

Lemma each_constraints_emit (h : heap) (cs : list Constraint.t)
  (acc : string) :
  Collection.each (visit_constraint h) cs (acc, false)
  = (acc +:+ prefixed "&" (spec_constraint_pair h <$> cs), false).
Proof.
  unfold Collection.each. revert acc.
  induction cs as [|c cs IH]; intros acc; cbn [fold_left].
  - simpl. by rewrite append_empty_r.
  - rewrite visit_constraint_emit, IH. simpl.
    by rewrite append_empty_r, !append_assoc.
Qed.

Lemma each_appends_emit (h : heap) (items : list Append.t) (acc : string) :
  Collection.each (visit_append h) items (acc, false)
  = (acc +:+ prefixed "&" (items ≫= spec_append_pairs h), false).
Proof.
  unfold Collection.each. revert acc.
  induction items as [|item items IH]; intros acc; cbn [fold_left].
  - simpl. by rewrite append_empty_r.
  - rewrite visit_append_emit, IH. simpl.
    by rewrite prefixed_app, !append_assoc.
Qed.

(** What [toQueryString] computes in every state: the [?] is repeated
    before every pair of the first parameter when there is no constraint. *)
Lemma toQueryString_emitted (w : World) :
  toQueryString w
  = (Return
       match _constraints (self w), appends (self w) with
       | c :: cs, items =>
           "?" +:+ spec_constraint_pair (mem w) c
             +:+ prefixed "&"
                   ((spec_constraint_pair (mem w) <$> cs)
                      ++ (items ≫= spec_append_pairs (mem w)))
       | [], item :: items =>
           prefixed "?" (spec_append_pairs (mem w) item)
             +:+ prefixed "&" (items ≫= spec_append_pairs (mem w))
       | [], [] => ""
       end, w).
Proof.
  unfold toQueryString, bind, this, memory, ret.
  cbn beta iota match delta [fst snd].
  f_equal. f_equal.
  destruct (_constraints (self w)) as [|c cs].
  - destruct (appends (self w)) as [|item items]; [done|].
    unfold Collection.each at 2. cbn [fold_left].
    unfold Collection.each at 1. cbn [fold_left].
    rewrite visit_append_emit.
    change (fold_left (visit_append (mem w)) items ?a)
      with (Collection.each (visit_append (mem w)) items a).
    by rewrite each_appends_emit.
  - unfold Collection.each at 2. cbn [fold_left].
    rewrite visit_constraint_emit.
    change (fold_left (visit_constraint (mem w)) cs ?a)
      with (Collection.each (visit_constraint (mem w)) cs a).
    rewrite each_constraints_emit, each_appends_emit. simpl.
    by rewrite prefixed_app, append_empty_r, !append_assoc.
Qed.

(** In a state whose values convert to strings ([serialisable]), the string
    is the one section 4.4 describes as soon as a constraint is set, or the
    first parameter contributes exactly one pair, as [limit] does while it
    holds a number or a string. *)
Lemma toQueryString_agrees (w : World) :
  serialisable (mem w) (self w) = true ->
  _constraints (self w) <> []
  \/ appends (self w) = []
  \/ (exists item items p,
        appends (self w) = item :: items
        /\ spec_append_pairs (mem w) item = [p]) ->
  fst (toQueryString w)
  = Return (spec_query_string (spec_pairs (mem w) (self w))).
Proof.
  intros _ Hcond. rewrite toQueryString_emitted. simpl. f_equal.
  unfold spec_pairs.
  destruct (_constraints (self w)) as [|c cs]; [|done].
  destruct Hcond as [Hc | [-> | (item & items & p & -> & Hp)]]; try done.
  simpl. rewrite Hp. simpl. by rewrite append_empty_r, !append_assoc.
Qed.

(** ** Lookups that an update elsewhere leaves alone *)

Section CollectionFrame.
Context {A : Type} (key : A -> string).

Lemma get_push_other (k : string) (c : list A) (x : A) :
  key x <> k ->
  Collection.get key k (Collection.push x c) = Collection.get key k c.
Proof.
  intros Hk. unfold Collection.get, Collection.push.
  destruct (list_find (fun y => key y = k) c) as [[i y]|] eqn:Hf.
  - by rewrite (list_find_app_l _ _ _ _ _ Hf).
  - rewrite (list_find_app_r _ _ _ Hf). simpl.
    by destruct (decide (key x = k)).
Qed.

Lemma get_insert_other (k : string) (c : list A) (i : nat) (x y : A) :
  c !! i = Some x -> key x <> k -> key y <> k ->
  Collection.get key k (<[i := y]> c) = Collection.get key k c.
Proof.
  unfold Collection.get. revert i.
  induction c as [|a c IH]; intros i Hi Hx Hy; [done|].
  destruct i as [|i]; simpl in *.
  - injection Hi as ->.
    destruct (decide (key y = k)); [done|].
    by destruct (decide (key x = k)).
  - destruct (decide (key a = k)); [done|]. by rewrite (IH i).
Qed.

End CollectionFrame.

(** ** Mutators only add *)

Lemma only_adds_refl (w : World) : only_adds w w.
Proof.
  split; [done|].
  split; [exists []; split; [by rewrite app_nil_r | simpl; lia]|].
  split; exists []; (split; [by rewrite app_nil_r | simpl; lia]).
Qed.

Lemma only_adds_intro (w w' : World) (ext : heap) (ec ea : list string) :
  model (self w') = model (self w) ->
  mem w' = mem w ++ ext -> (length ext <= 1)%nat ->
  Constraint.filter <$> _constraints (self w')
  = (Constraint.filter <$> _constraints (self w)) ++ ec ->
  (length ec <= 1)%nat ->
  Append.name <$> appends (self w')
  = (Append.name <$> appends (self w)) ++ ea ->
  (length ea <= 1)%nat ->
  only_adds w w'.
Proof.
  intros Hm Hh Hhl Hc Hcl Ha Hal.
  split; [done|]. split; [by exists ext|]. split; [by exists ec|by exists ea].
Qed.

Lemma names_insert (w : World) (n : string) (v : value) (i : nat)
  (item : Append.t) :
  Collection.get Append.name n (appends (self w)) = Some (i, item) ->
  Append.name <$> <[i := {| Append.name := n; Append.value := v |}]>
                    (appends (self w))
  = (Append.name <$> appends (self w)) ++ [].
Proof.
  intros Hg. destruct (get_Some_key _ _ _ _ _ Hg) as [Hi Hk].
  rewrite app_nil_r. by apply (keys_insert _ _ _ _ _ Hi).
Qed.

Lemma names_push (w : World) (n : string) (v : value) :
  Append.name <$> (appends (self w)
                     ++ [ {| Append.name := n; Append.value := v |} ])
  = (Append.name <$> appends (self w)) ++ [n].
Proof. by rewrite fmap_app. Qed.

Ltac settle_only_adds :=
  first
    [ apply only_adds_refl
    | eapply (only_adds_intro _ _ [] [] _);
      [ reflexivity | by rewrite app_nil_r | simpl; lia
      | by rewrite app_nil_r | simpl; lia
      | first [ by eapply names_insert | by apply names_push ]
      | simpl; lia ]
    | eapply (only_adds_intro _ _ [_] [] _);
      [ reflexivity | reflexivity | simpl; lia
      | by rewrite app_nil_r | simpl; lia
      | first [ by eapply names_insert | by apply names_push ]
      | simpl; lia ] ].

(** Whatever the mutator and the state: the model descriptor stays, no
    record is removed or moved in either store, and heap and stores grow by
    one entry at most. *)
Theorem mutators_only_add (c : mutator) (w : World) :
  only_adds w (snd (perform c w)).
Proof.
  destruct c as [f v|os|v|p| | |n v|n v]; simpl.
  - destruct (Collection.get Constraint.filter f (_constraints (self w)))
      as [[i c]|] eqn:Hg.
    + rewrite (where_present _ _ _ _ _ Hg).
      destruct (get_Some_key _ _ _ _ _ Hg) as [Hi Hk].
      eapply (only_adds_intro _ _ [] [] []);
        [reflexivity | by rewrite app_nil_r | simpl; lia | | simpl; lia
        | by rewrite app_nil_r | simpl; lia].
      simpl. rewrite app_nil_r. by apply (keys_insert _ _ _ _ _ Hi).
    + rewrite (where_absent _ _ _ Hg).
      eapply (only_adds_intro _ _ [] [f] []);
        [reflexivity | by rewrite app_nil_r | simpl; lia | | simpl; lia
        | by rewrite app_nil_r | simpl; lia].
      simpl. by rewrite fmap_app.
  - destruct (Collection.get Append.name "order" (appends (self w)))
      as [[i item]|] eqn:Hg.
    + rewrite (orderBy_present _ _ _ _ Hg). settle_only_adds.
    + rewrite (orderBy_absent _ _ Hg). settle_only_adds.
  - destruct (Collection.get Append.name "limit" (appends (self w)))
      as [[i item]|] eqn:Hg.
    + rewrite (setLimit_present _ _ _ _ Hg). settle_only_adds.
    + rewrite (setLimit_absent _ _ Hg). settle_only_adds.
  - destruct (Collection.get Append.name "page" (appends (self w)))
      as [[i item]|] eqn:Hg.
    + rewrite (setPage_present _ _ _ _ Hg). settle_only_adds.
    + rewrite (setPage_absent _ _ Hg). settle_only_adds.
  - destruct (Collection.get Append.name "page" (appends (self w)))
      as [[i item]|] eqn:Hg.
    + rewrite (incrementPage_present _ _ _ Hg). settle_only_adds.
    + destruct (page_absent _ Hg) as (_ & -> & _). settle_only_adds.
  - destruct (Collection.get Append.name "page" (appends (self w)))
      as [[i item]|] eqn:Hg.
    + rewrite (decrementPage_present _ _ _ Hg). settle_only_adds.
    + destruct (page_absent _ Hg) as (_ & _ & ->). settle_only_adds.
  - destruct (Collection.get Append.name n (appends (self w)))
      as [[i item]|] eqn:Hg.
    + rewrite append_present by done. settle_only_adds.
    + rewrite (append_absent _ _ _ Hg). settle_only_adds.
  - destruct (Collection.get Append.name n (appends (self w)))
      as [[i item]|] eqn:Hg.
    + rewrite (updateVariable_present _ _ _ _ _ Hg). settle_only_adds.
    + rewrite (updateVariable_absent _ _ _ Hg). settle_only_adds.
Qed.

(** ** Invariants of the worlds the interface leads to *)

Lemma sample_reached_reached : reached sample_reached.
Proof. apply reached_call, reached_call, reached_new. Qed.

(** Keys are unique in both stores of every builder the interface leads
    to, whatever the caller does to the heap in between. *)
Theorem reached_key_unique (w : World) :
  reached w -> key_unique (self w).
Proof.
  induction 1 as [m h|c w Hw IH|h w Hw IH]; simpl.
  - apply key_unique_new.
  - by apply key_unique_perform.
  - done.
Qed.

Lemma reached_key_unique_witness :
  reached sample_reached /\ key_unique (self sample_reached).
Proof.
  split; [exact sample_reached_reached|].
  exact (reached_key_unique sample_reached sample_reached_reached).
Defined.

Lemma reached_names (w : World) :
  reached w ->
  exists rest, Append.name <$> appends (self w) = "limit" :: "page" :: rest.
Proof.
  induction 1 as [m h|c w Hw [rest IH]|h w Hw IH]; simpl.
  - by exists [].
  - destruct (mutators_only_add c w) as (_ & _ & _ & extra & Hn & _).
    exists (rest ++ extra). by rewrite Hn, IH.
  - done.
Qed.

Lemma reached_defaults (w : World) :
  reached w ->
  exists a0 a1 rest,
    appends (self w) = a0 :: a1 :: rest
    /\ Append.name a0 = "limit" /\ Append.name a1 = "page".
Proof.
  intros [names Hn]%reached_names.
  destruct (appends (self w)) as [|a0 [|a1 rest]]; try done.
  simpl in Hn. injection Hn as H0 H1 _. by exists a0, a1, rest.
Qed.

Lemma defaults_get (w : World) (a0 a1 : Append.t) (rest : list Append.t) :
  appends (self w) = a0 :: a1 :: rest ->
  Append.name a0 = "limit" -> Append.name a1 = "page" ->
  Collection.get Append.name "limit" (appends (self w)) = Some (0%nat, a0)
  /\ Collection.get Append.name "page" (appends (self w)) = Some (1%nat, a1).
Proof.
  intros -> H0 H1. unfold Collection.get. simpl.
  rewrite H0, H1. split; reflexivity.
Qed.

(** The two default parameters stay where the constructor put them: [limit]
    first and [page] second.  So [getLimit] never falls back to -1 and
    [currentPage] never reads a property of [null]; both hand back the stored
    value and leave the state alone. *)
Theorem reached_limit_and_page (w : World) :
  reached w ->
  exists a0 a1 rest,
    appends (self w) = a0 :: a1 :: rest
    /\ Append.name a0 = "limit" /\ Append.name a1 = "page"
    /\ hasVariable "limit" w = (Return true, w)
    /\ hasVariable "page" w = (Return true, w)
    /\ getLimit w = (Return (Append.value a0), w)
    /\ currentPage w = (Return (Append.value a1), w).
Proof.
  intros (a0 & a1 & rest & Ha & H0 & H1)%reached_defaults.
  destruct (defaults_get w a0 a1 rest Ha H0 H1) as [Hl Hp].
  exists a0, a1, rest. split; [done|]. split; [done|]. split; [done|].
  split; [|split; [|split]].
  - unfold hasVariable, bind, this, ret. simpl. by rewrite Hl.
  - unfold hasVariable, bind, this, ret. simpl. by rewrite Hp.
  - unfold_methods. simpl. rewrite Hl. simpl. by rewrite Hl.
  - by apply (currentPage_present _ _ _ Hp).
Qed.

Lemma reached_limit_and_page_witness :
  reached sample_reached
  /\ getLimit sample_reached = (Return (VNum 15), sample_reached)
  /\ currentPage sample_reached = (Return (VNum 1), sample_reached).
Proof.
  split; [exact sample_reached_reached|].
  destruct (reached_limit_and_page sample_reached sample_reached_reached)
    as (a0 & a1 & rest & Ha & _ & _ & _ & _ & Hl & Hp).
  injection Ha as <- <- _. split; [exact Hl | exact Hp].
Defined.

(** On a builder the interface leads to, [where], [orderBy], [setLimit] and
    [setPage] cannot throw: each returns the builder.  So do [incrementPage]
    and [decrementPage] when the page is not an array or object, but a
    number, a string, a boolean, [null] or [undefined], for which [+] and
    [-] cannot throw. *)
Theorem reached_mutators_return (w : World) :
  reached w ->
  (forall f v, fst (where_ f v w) = Return This)
  /\ (forall os, fst (orderBy os w) = Return This)
  /\ (forall v, fst (setLimit v w) = Return This)
  /\ (forall p, fst (setPage p w) = Return This)
  /\ (forall p,
        fst (currentPage w) = Return p ->
        is_ref p = false ->
        fst (incrementPage w) = Return This
        /\ fst (decrementPage w) = Return This).
Proof.
  intros (a0 & a1 & rest & Ha & H0 & H1)%reached_defaults.
  destruct (defaults_get w a0 a1 rest Ha H0 H1) as [Hl Hp].
  split; [|split; [|split; [|split]]].
  - intros f v.
    destruct (Collection.get Constraint.filter f (_constraints (self w)))
      as [[i c]|] eqn:Hg.
    + by rewrite (where_present _ _ _ _ _ Hg).
    + by rewrite (where_absent _ _ _ Hg).
  - intros os.
    destruct (Collection.get Append.name "order" (appends (self w)))
      as [[i item]|] eqn:Hg.
    + by rewrite (orderBy_present _ _ _ _ Hg).
    + by rewrite (orderBy_absent _ _ Hg).
  - intros v. by rewrite (setLimit_present _ _ _ _ Hl).
  - intros p. by rewrite (setPage_present _ _ _ _ Hp).
  - intros p _ _.
    by rewrite (incrementPage_present _ _ _ Hp),
      (decrementPage_present _ _ _ Hp).
Qed.

Lemma reached_mutators_return_witness :
  reached sample_reached
  /\ fst (setPage (VNum 7) sample_reached) = Return This
  /\ fst (currentPage sample_reached) = Return (VNum 1)
  /\ fst (incrementPage sample_reached) = Return This
  /\ fst (decrementPage sample_reached) = Return This.
Proof.
  split; [exact sample_reached_reached|].
  destruct (reached_mutators_return sample_reached sample_reached_reached)
    as (_ & _ & _ & Hs & Hp).
  split; [exact (Hs (VNum 7))|]. split; [reflexivity|].
  exact (Hp (VNum 1) eq_refl eq_refl).
Defined.

(** A mutator that throws has changed nothing: heap and builder are as
    before the call. *)
Theorem mutator_throw_changes_nothing (c : mutator) (w : World) (e : exn) :
  fst (perform c w) = Throw e -> snd (perform c w) = w.
Proof.
  destruct c as [f v|os|v|p| | |n v|n v]; simpl.
  - destruct (Collection.get Constraint.filter f (_constraints (self w)))
      as [[i c]|] eqn:Hg.
    + by rewrite (where_present _ _ _ _ _ Hg).
    + by rewrite (where_absent _ _ _ Hg).
  - destruct (Collection.get Append.name "order" (appends (self w)))
      as [[i item]|] eqn:Hg.
    + by rewrite (orderBy_present _ _ _ _ Hg).
    + by rewrite (orderBy_absent _ _ Hg).
  - destruct (Collection.get Append.name "limit" (appends (self w)))
      as [[i item]|] eqn:Hg.
    + by rewrite (setLimit_present _ _ _ _ Hg).
    + by rewrite (setLimit_absent _ _ Hg).
  - destruct (Collection.get Append.name "page" (appends (self w)))
      as [[i item]|] eqn:Hg.
    + by rewrite (setPage_present _ _ _ _ Hg).
    + by rewrite (setPage_absent _ _ Hg).
  - destruct (Collection.get Append.name "page" (appends (self w)))
      as [[i item]|] eqn:Hg.
    + by rewrite (incrementPage_present _ _ _ Hg).
    + by destruct (page_absent _ Hg) as (_ & -> & _).
  - destruct (Collection.get Append.name "page" (appends (self w)))
      as [[i item]|] eqn:Hg.
    + by rewrite (decrementPage_present _ _ _ Hg).
    + by destruct (page_absent _ Hg) as (_ & _ & ->).
  - destruct (Collection.get Append.name n (appends (self w)))
      as [[i item]|] eqn:Hg.
    + by rewrite append_present.
    + by rewrite (append_absent _ _ _ Hg).
  - destruct (Collection.get Append.name n (appends (self w)))
      as [[i item]|] eqn:Hg.
    + by rewrite (updateVariable_present _ _ _ _ _ Hg).
    + by rewrite (updateVariable_absent _ _ _ Hg).
Qed.

Lemma mutator_throw_changes_nothing_witness :
  (exists msg,
     fst (perform (AppendVariable "limit" (VNum 3)) sample_reached)
     = Throw (DuplicateVariableException msg))
  /\ snd (perform (AppendVariable "limit" (VNum 3)) sample_reached)
     = sample_reached.
Proof.
  split; [eexists; reflexivity|].
  exact (mutator_throw_changes_nothing (AppendVariable "limit" (VNum 3))
           sample_reached _ eq_refl).
Defined.

(** ** Writing a parameter or a constraint and reading it back *)

Lemma hasVariable_false (n : string) (w : World) :
  fst (hasVariable n w) = Return false ->
  Collection.get Append.name n (appends (self w)) = None.
Proof.
  unfold hasVariable, bind, this, ret. simpl. intros [= Hb].
  apply bool_decide_eq_false in Hb. by apply eq_None_not_Some.
Qed.

Lemma hasVariable_true (n : string) (w : World) :
  fst (hasVariable n w) = Return true ->
  exists i item,
    Collection.get Append.name n (appends (self w)) = Some (i, item).
Proof.
  unfold hasVariable, bind, this, ret. simpl. intros [= Hb].
  apply bool_decide_eq_true in Hb. destruct Hb as [[i item] Hg]. eauto.
Qed.

Lemma hasVariable_present (n : string) (w : World) (i : nat)
  (item : Append.t) :
  Collection.get Append.name n (appends (self w)) = Some (i, item) ->
  hasVariable n w = (Return true, w).
Proof. intros Hg. unfold hasVariable, bind, this, ret. simpl. by rewrite Hg. Qed.

Lemma getVariable_present (n : string) (d : value) (w : World) (i : nat)
  (item : Append.t) :
  Collection.get Append.name n (appends (self w)) = Some (i, item) ->
  getVariable n d w = (Return (Append.value item), w).
Proof.
  intros Hg. unfold_methods. simpl. rewrite Hg. simpl. by rewrite Hg.
Qed.

Lemma getVariable_absent (n : string) (d : value) (w : World) :
  Collection.get Append.name n (appends (self w)) = None ->
  getVariable n d w
  = (Return (match d with VUndefined => VNull | _ => d end), w).
Proof. intros Hg. unfold_methods. simpl. by rewrite Hg. Qed.

Lemma getLimit_present (w : World) (i : nat) (item : Append.t) :
  Collection.get Append.name "limit" (appends (self w)) = Some (i, item) ->
  getLimit w = (Return (Append.value item), w).
Proof.
  intros Hg. unfold_methods. simpl. rewrite Hg. simpl. by rewrite Hg.
Qed.

(** What [getVariable] hands back depends on the store through the lookup
    of its name only. *)
Lemma getVariable_frame (n : string) (d : value) (w w' : World) :
  Collection.get Append.name n (appends (self w'))
  = Collection.get Append.name n (appends (self w)) ->
  fst (getVariable n d w') = fst (getVariable n d w).
Proof.
  intros Hg.
  destruct (Collection.get Append.name n (appends (self w)))
    as [[i item]|] eqn:Hw.
  - by rewrite (getVariable_present _ _ _ _ _ Hg),
      (getVariable_present _ _ _ _ _ Hw).
  - by rewrite (getVariable_absent _ _ _ Hg), (getVariable_absent _ _ _ Hw).
Qed.

(** In every state, [setLimit(v)] returns the builder, [getLimit()] then
    hands back [v], and the heap, the constraints and every other parameter
    read as before. *)
Theorem setLimit_then_getLimit (v : value) (w : World) :
  let w' := snd (setLimit v w) in
  fst (setLimit v w) = Return This
  /\ getLimit w' = (Return v, w')
  /\ mem w' = mem w
  /\ _constraints (self w') = _constraints (self w)
  /\ (forall n d, n <> "limit" ->
                  fst (getVariable n d w') = fst (getVariable n d w)).
Proof.
  simpl.
  destruct (Collection.get Append.name "limit" (appends (self w)))
    as [[i item]|] eqn:Hg.
  - rewrite (setLimit_present _ _ _ _ Hg). simpl.
    destruct (get_Some_key _ _ _ _ _ Hg) as [Hi Hk].
    split; [done|]. split; [|split; [done|split; [done|]]].
    + erewrite getLimit_present; [|simpl; by eapply get_insert_same]. done.
    + intros n d Hn. apply getVariable_frame. simpl.
      eapply get_insert_other; [exact Hi|congruence|done].
  - rewrite (setLimit_absent _ _ Hg). simpl.
    split; [done|]. split; [|split; [done|split; [done|]]].
    + erewrite getLimit_present; [|simpl; by apply get_push_absent]. done.
    + intros n d Hn. apply getVariable_frame. simpl.
      by apply (get_push_other Append.name).
Qed.

(** When no parameter is named [n]: [append(n, v)] returns the builder;
    afterwards [hasVariable(n)] is true and [getVariable(n, d)] is [v]
    whatever the default [d] (also when [v] is [undefined]); every other
    parameter reads as before, heap and constraints are untouched, and a
    second [append(n, _)] throws and changes nothing. *)
Theorem append_then_getVariable (n : string) (v : value) (w : World) :
  fst (hasVariable n w) = Return false ->
  let w' := snd (append n v w) in
  fst (append n v w) = Return This
  /\ hasVariable n w' = (Return true, w')
  /\ (forall d, getVariable n d w' = (Return v, w'))
  /\ (forall n' d, n' <> n ->
                   fst (getVariable n' d w') = fst (getVariable n' d w))
  /\ mem w' = mem w
  /\ _constraints (self w') = _constraints (self w)
  /\ (forall v2, exists msg,
        append n v2 w' = (Throw (DuplicateVariableException msg), w')).
Proof.
  intros Hg%hasVariable_false. simpl. rewrite (append_absent _ _ _ Hg). simpl.
  assert (Hnew : Collection.get Append.name n
                   (appends (self (with_appends w
                      (appends (self w)
                         ++ [ {| Append.name := n; Append.value := v |} ]))))
                 = Some (length (appends (self w)),
                         {| Append.name := n; Append.value := v |}))
    by (simpl; by apply get_push_absent).
  split; [done|]. split; [by eapply hasVariable_present|].
  split; [intros d; by rewrite (getVariable_present _ _ _ _ _ Hnew)|].
  split; [|split; [done|split; [done|]]].
  - intros n' d Hn. apply getVariable_frame. simpl.
    by apply (get_push_other Append.name).
  - intros v2. eexists. apply append_present. by rewrite Hnew.
Qed.

Lemma append_then_getVariable_witness :
  let w := {| mem := []; self := new {| url := "/users" |} |} in
  let w' := snd (append "tags" VUndefined w) in
  fst (hasVariable "tags" w) = Return false
  /\ getVariable "tags" (VNum 5) w' = (Return VUndefined, w')
  /\ hasVariable "tags" w' = (Return true, w').
Proof.
  intros w w'. split; [reflexivity|].
  destruct (append_then_getVariable "tags" VUndefined w eq_refl)
    as (_ & Hh & Hv & _).
  split; [exact (Hv (VNum 5)) | exact Hh].
Defined.

(** When a parameter is named [n]: after [updateVariable(n, v)],
    [getVariable(n, d)] is [v]; the store has as many records as before,
    every other parameter reads as before, heap and constraints are
    untouched. *)
Theorem updateVariable_then_getVariable (n : string) (v : value) (w : World) :
  fst (hasVariable n w) = Return true ->
  let w' := snd (updateVariable n v w) in
  (forall d, getVariable n d w' = (Return v, w'))
  /\ length (appends (self w')) = length (appends (self w))
  /\ (forall n' d, n' <> n ->
                   fst (getVariable n' d w') = fst (getVariable n' d w))
  /\ mem w' = mem w
  /\ _constraints (self w') = _constraints (self w).
Proof.
  intros (i & item & Hg)%hasVariable_true. simpl.
  rewrite (updateVariable_present _ _ _ _ _ Hg). simpl.
  destruct (get_Some_key _ _ _ _ _ Hg) as [Hi Hk].
  split; [|split; [by rewrite length_insert|split; [|done]]].
  - intros d.
    erewrite getVariable_present; [|simpl; by eapply get_insert_same]. done.
  - intros n' d Hn. apply getVariable_frame. simpl.
    eapply get_insert_other; [exact Hi|congruence|simpl; congruence].
Qed.

Lemma updateVariable_then_getVariable_witness :
  let w := {| mem := []; self := new {| url := "/users" |} |} in
  let w' := snd (updateVariable "page" (VNum 4) w) in
  fst (hasVariable "page" w) = Return true
  /\ getVariable "page" VNull w' = (Return (VNum 4), w')
  /\ fst (getVariable "limit" VNull w') = Return (VNum 15).
Proof.
  intros w w'. split; [reflexivity|].
  destruct (updateVariable_then_getVariable "page" (VNum 4) w eq_refl)
    as (Hv & _ & Hf & _).
  split; [exact (Hv VNull)|].
  exact (Hf "limit" VNull ltac:(discriminate)).
Defined.

Lemma hasConstraint_run (f : string) (w : World) :
  hasConstraint f w
  = (Return (bool_decide
               (is_Some (Collection.get Constraint.filter f
                           (_constraints (self w))))), w).
Proof. reflexivity. Qed.

(** What [getConstraintValue] hands back depends on the builder through the
    lookup of its filter only. *)
Lemma getConstraintValue_frame (fuel : nat) (f : string) (w w' : World) :
  mem w' = mem w ->
  Collection.get Constraint.filter f (_constraints (self w'))
  = Collection.get Constraint.filter f (_constraints (self w)) ->
  fst (getConstraintValue fuel f w') = fst (getConstraintValue fuel f w).
Proof.
  intros Hm Hg. unfold getConstraintValue, bind, this, memory, ret, run_clone.
  simpl. rewrite Hg, Hm.
  destruct (Collection.get Constraint.filter f (_constraints (self w)))
    as [[i c]|]; [|done].
  destruct (instanceof_Object (mem w) (Constraint.value c)); [|done].
  rewrite Hm. by destruct (clone fuel (mem w) (Constraint.value c)) as [[??]|].
Qed.

(** For a value [v] that is no array or object: after [where(f, v)],
    [hasConstraint(f)] is true and [getConstraintValue(f)] is [v] itself (so
    a filter set to [null] reads like an unset one, and only [hasConstraint]
    tells them apart); every other filter reads as before, and heap and
    parameters are untouched. *)
Theorem where_then_getConstraintValue (fuel : nat) (f : string) (v : value)
  (w : World) :
  is_ref v = false ->
  let w' := snd (where_ f v w) in
  hasConstraint f w' = (Return true, w')
  /\ getConstraintValue fuel f w' = (Return v, w')
  /\ (forall f', f' <> f ->
        fst (hasConstraint f' w') = fst (hasConstraint f' w)
        /\ fst (getConstraintValue fuel f' w')
           = fst (getConstraintValue fuel f' w))
  /\ mem w' = mem w
  /\ appends (self w') = appends (self w).
Proof.
  intros Hv. simpl.
  assert (Hw : exists cs position,
    snd (where_ f v w) = with_constraints w cs
    /\ Collection.get Constraint.filter f cs
       = Some (position,
               {| Constraint.filter := f; Constraint.value := v |})
    /\ forall f', f' <> f ->
         Collection.get Constraint.filter f' cs
         = Collection.get Constraint.filter f' (_constraints (self w))).
  { destruct (Collection.get Constraint.filter f (_constraints (self w)))
      as [[i c]|] eqn:Hg.
    - rewrite (where_present _ _ _ _ _ Hg).
      destruct (get_Some_key _ _ _ _ _ Hg) as [Hi Hk].
      eexists _, i. split; [done|]. split; [by eapply get_insert_same|].
      intros f' Hf. eapply get_insert_other; [exact Hi|congruence|].
      simpl. congruence.
    - rewrite (where_absent _ _ _ Hg).
      eexists _, _. split; [done|]. split; [by apply get_push_absent|].
      intros f' Hf. apply (get_push_other Constraint.filter). simpl.
      congruence. }
  destruct Hw as (cs & position & -> & Hget & Hother).
  split; [|split; [|split; [|done]]].
  - rewrite hasConstraint_run. simpl. by rewrite Hget.
  - by apply (getConstraintValue_primitive fuel f (with_constraints w cs)
                position _ Hget).
  - intros f' Hf. split.
    + simpl. by rewrite (Hother f' Hf).
    + apply getConstraintValue_frame; [done|]. simpl. by apply Hother.
Qed.

Lemma where_then_getConstraintValue_witness :
  let w := {| mem := []; self := new {| url := "/users" |} |} in
  let w' := snd (where_ "status" VNull w) in
  is_ref VNull = false
  /\ hasConstraint "status" w' = (Return true, w')
  /\ getConstraintValue 0 "status" w' = (Return VNull, w')
  /\ getConstraintValue 0 "status" w = (Return VNull, w).
Proof.
  intros w w'. split; [reflexivity|].
  destruct (where_then_getConstraintValue 0 "status" VNull w eq_refl)
    as (Hh & Hv & _).
  split; [exact Hh|]. split; [exact Hv | reflexivity].
Defined.

(** ** Pages *)

Lemma with_appends_same (w : World) : with_appends w (appends (self w)) = w.
Proof. by destruct w as [h [m c a]]. Qed.

Lemma currentPage_record (w : World) (v : value) :
  fst (currentPage w) = Return v ->
  exists i,
    Collection.get Append.name "page" (appends (self w))
    = Some (i, {| Append.name := "page"; Append.value := v |}).
Proof.
  intros Hp.
  destruct (Collection.get Append.name "page" (appends (self w)))
    as [[i item]|] eqn:Hg.
  - rewrite (currentPage_present _ _ _ Hg) in Hp. simpl in Hp.
    injection Hp as Hv. destruct (get_Some_key _ _ _ _ _ Hg) as [_ Hk].
    exists i. destruct item as [n v']. simpl in *. by subst.
  - destruct (page_absent _ Hg) as (Hc & _). by rewrite Hc in Hp.
Qed.

(** On a page that is a safe integer, where adding and subtracting 1 are
    exact, [incrementPage] and [decrementPage] undo each other: after one
    and then the other, heap and builder are exactly as before. *)
Theorem increment_decrement_inverse (w : World) (n : Z) :
  safe_integer n ->
  fst (currentPage w) = Return (VNum n) ->
  snd (decrementPage (snd (incrementPage w))) = w
  /\ snd (incrementPage (snd (decrementPage w))) = w.
Proof.
  intros _ [i Hg]%currentPage_record.
  destruct (get_Some_key _ _ _ _ _ Hg) as [Hi _].
  rewrite (incrementPage_present _ _ _ Hg), (decrementPage_present _ _ _ Hg).
  simpl. split.
  - erewrite decrementPage_present; [|simpl; by eapply get_insert_same].
    simpl. unfold with_appends, sub, add. simpl.
    rewrite list_insert_insert_eq. replace (n + 1 - 1) with n by lia.
    rewrite (list_insert_id _ _ _ Hi). apply with_appends_same.
  - erewrite incrementPage_present; [|simpl; by eapply get_insert_same].
    simpl. unfold with_appends, sub, add. simpl.
    rewrite list_insert_insert_eq. replace (n - 1 + 1) with n by lia.
    rewrite (list_insert_id _ _ _ Hi). apply with_appends_same.
Qed.

Lemma increment_decrement_inverse_witness :
  let w := {| mem := []; self := new {| url := "/users" |} |} in
  safe_integer 1
  /\ fst (currentPage w) = Return (VNum 1)
  /\ snd (decrementPage (snd (incrementPage w))) = w
  /\ snd (incrementPage (snd (decrementPage w))) = w.
Proof.
  intros w.
  assert (Hsafe : safe_integer 1) by (unfold safe_integer; lia).
  split; [exact Hsafe|]. split; [reflexivity|].
  exact (increment_decrement_inverse w 1 Hsafe eq_refl).
Defined.

(** When the page is a string [s], as after [setPage('3')], [incrementPage]
    stores the string [s] followed by the character 1 ('31', not 4), since
    [+] concatenates; the call returns the builder all the same. *)
Theorem page_as_string_steps (w : World) (s : string) :
  fst (currentPage w) = Return (VStr s) ->
  fst (incrementPage w) = Return This
  /\ fst (currentPage (snd (incrementPage w))) = Return (VStr (s +:+ "1")).
Proof.
  intros [i Hg]%currentPage_record.
  rewrite (incrementPage_present _ _ _ Hg).
  simpl. split; [done|].
  erewrite currentPage_present; [|simpl; by eapply get_insert_same]. done.
Qed.

Lemma page_as_string_steps_witness :
  let w := snd (setPage (VStr "3")
                  {| mem := []; self := new {| url := "/users" |} |}) in
  fst (currentPage w) = Return (VStr "3")
  /\ fst (currentPage (snd (incrementPage w))) = Return (VStr "31").
Proof.
  intros w. split; [reflexivity|].
  exact (proj2 (page_as_string_steps w "3" eq_refl)).
Defined.

(** ** Separators and composite values in the query string *)

Lemma toQueryString_agrees_witness :
  let w := snd (where_ "status" (VStr "a&b")
                  {| mem := []; self := new {| url := "/users" |} |}) in
  serialisable (mem w) (self w) = true
  /\ _constraints (self w) <> []
  /\ fst (toQueryString w)
     = Return "?filters[status][]=a%26b&limit=15&page=1".
Proof.
  intros w.
  assert (Hc : _constraints (self w) <> []) by (simpl; discriminate).
  split; [reflexivity|]. split; [exact Hc|].
  exact (toQueryString_agrees w eq_refl (or_introl Hc)).
Defined.

Lemma occurrences_app (c : ascii) (s1 s2 : string) :
  occurrences c (s1 +:+ s2) = (occurrences c s1 + occurrences c s2)%nat.
Proof.
  induction s1 as [|a s1 IH]; [done|].
  change (String a s1 +:+ s2) with (String a (s1 +:+ s2)).
  simpl. rewrite IH. lia.
Qed.

Lemma hex_digit_unreserved (k : nat) :
  (k < 16)%nat -> unreserved (hex_digit k) = true.
Proof.
  intros Hk. do 16 (destruct k as [|k]; [reflexivity|]). lia.
Qed.

Lemma percent_encode_clean (c a : ascii) :
  unreserved c = false -> c <> "%"%char ->
  occurrences c (percent_encode a) = 0%nat.
Proof.
  intros Hc Hp. unfold percent_encode.
  pose proof (nat_ascii_bounded a) as Ha.
  assert (H1 : unreserved (hex_digit (nat_of_ascii a / 16)) = true).
  { apply hex_digit_unreserved. apply Nat.Div0.div_lt_upper_bound. lia. }
  assert (H2 : unreserved (hex_digit (nat_of_ascii a mod 16)) = true).
  { apply hex_digit_unreserved. apply Nat.mod_upper_bound. lia. }
  cbn [occurrences].
  destruct (decide ("%"%char = c)) as [E|_]; [congruence|].
  destruct (decide (hex_digit (nat_of_ascii a / 16) = c)) as [E|_];
    [rewrite <- E in Hc; congruence|].
  destruct (decide (hex_digit (nat_of_ascii a mod 16) = c)) as [E|_];
    [rewrite <- E in Hc; congruence|].
  done.
Qed.

(** An escaped component holds no reserved character but the percent sign. *)
Lemma uri_encode_clean (c : ascii) (s : string) :
  unreserved c = false -> c <> "%"%char ->
  occurrences c (uri_encode s) = 0%nat.
Proof.
  intros Hc Hp. induction s as [|a s IH]; [done|]. simpl.
  destruct (unreserved a) eqn:Ha.
  - simpl. rewrite IH. case_decide; [congruence|done].
  - by rewrite occurrences_app, IH, percent_encode_clean.
Qed.

Lemma pairs_clean (c : ascii) (h : heap) :
  unreserved c = false -> c <> "%"%char -> c <> "["%char -> c <> "]"%char ->
  (forall x, occurrences c (spec_constraint_pair h x) = occurrences c "=")
  /\ (forall item,
        Forall (fun p => occurrences c p = occurrences c "=")
          (spec_append_pairs h item)).
Proof.
  intros Hc Hp Hl Hr.
  assert (Henc : forall v, occurrences c (encodeURIComponent h v) = 0%nat)
    by (intros v; by apply uri_encode_clean).
  assert (Hletters : occurrences c "filters[" = 0%nat).
  { simpl. repeat case_decide; subst; try done. }
  assert (Hopen : occurrences c "[" = 0%nat)
    by (simpl; by case_decide).
  assert (Harr : occurrences c "[]=" = occurrences c "=").
  { simpl. repeat case_decide; by subst. }
  assert (Hobj : occurrences c "]=" = occurrences c "=").
  { simpl. repeat case_decide; by subst. }
  assert (Hcon : occurrences c "][]=" = occurrences c "=").
  { simpl. repeat case_decide; by subst. }
  split.
  - intros x. unfold spec_constraint_pair.
    rewrite !occurrences_app, !Henc, Hletters, Hcon. lia.
  - intros item. unfold spec_append_pairs.
    destruct (instanceof_Array h (Append.value item)).
    + apply Forall_forall. intros p Hin.
      apply list_elem_of_In, in_map_iff in Hin as (x & <- & _).
      rewrite !occurrences_app, !Henc, Harr. lia.
    + destruct (instanceof_Object h (Append.value item)).
      * apply Forall_forall. intros p Hin.
        apply list_elem_of_In, in_map_iff in Hin as ([k x] & <- & _).
        rewrite !occurrences_app, !Henc, Hopen, Hobj. lia.
      * repeat constructor. rewrite !occurrences_app, !Henc. lia.
Qed.

Lemma occurrences_prefixed (c : ascii) (sep : string) (ps : list string)
  (k : nat) :
  Forall (fun p => occurrences c p = k) ps ->
  occurrences c (prefixed sep ps)
  = (length ps * (occurrences c sep + k))%nat.
Proof.
  induction 1 as [|p ps Hp _ IH]; [done|].
  simpl. rewrite !occurrences_app, IH, Hp. lia.
Qed.

Lemma spec_pairs_clean (c : ascii) (h : heap) (cs : list Constraint.t)
  (items : list Append.t) :
  unreserved c = false -> c <> "%"%char -> c <> "["%char -> c <> "]"%char ->
  Forall (fun p => occurrences c p = occurrences c "=")
    ((spec_constraint_pair h <$> cs) ++ (items ≫= spec_append_pairs h)).
Proof.
  intros Hc Hp Hl Hr. destruct (pairs_clean c h Hc Hp Hl Hr) as [H1 H2].
  apply Forall_app. split.
  - apply Forall_fmap, Forall_forall. intros x _. apply H1.
  - apply Forall_bind, Forall_forall. intros item _. apply H2.
Qed.

(** In every state whose values convert to strings ([serialisable]),
    [toQueryString] returns, leaves heap and builder alone, and writes
    exactly one separator before each pair and exactly one [=] inside it:
    the [?] and [&] of the result together, and its [=] signs, are as many
    as the pairs, the escaped components holding none. *)
Theorem toQueryString_separators (w : World) :
  serialisable (mem w) (self w) = true ->
  exists query_string,
    toQueryString w = (Return query_string, w)
    /\ (occurrences "?" query_string + occurrences "&" query_string)%nat
       = length (spec_pairs (mem w) (self w))
    /\ occurrences "=" query_string = length (spec_pairs (mem w) (self w)).
Proof.
  intros _. eexists. split; [apply toQueryString_emitted|].
  unfold spec_pairs.
  assert (Hq := fun cs items =>
            spec_pairs_clean "?" (mem w) cs items eq_refl
              ltac:(discriminate) ltac:(discriminate) ltac:(discriminate)).
  assert (Ha := fun cs items =>
            spec_pairs_clean "&" (mem w) cs items eq_refl
              ltac:(discriminate) ltac:(discriminate) ltac:(discriminate)).
  assert (He := fun cs items =>
            spec_pairs_clean "=" (mem w) cs items eq_refl
              ltac:(discriminate) ltac:(discriminate) ltac:(discriminate)).
  destruct (_constraints (self w)) as [|c cs].
  - destruct (appends (self w)) as [|item items]; [done|].
    pose proof (Hq [] [item]) as Hq1. pose proof (Hq [] items) as Hq2.
    pose proof (Ha [] [item]) as Ha1. pose proof (Ha [] items) as Ha2.
    pose proof (He [] [item]) as He1. pose proof (He [] items) as He2.
    simpl in *. rewrite app_nil_r in Hq1, Ha1, He1.
    rewrite !occurrences_app.
    rewrite (occurrences_prefixed _ _ _ _ Hq1),
      (occurrences_prefixed _ _ _ _ Hq2),
      (occurrences_prefixed _ _ _ _ Ha1),
      (occurrences_prefixed _ _ _ _ Ha2),
      (occurrences_prefixed _ _ _ _ He1),
      (occurrences_prefixed _ _ _ _ He2).
    rewrite length_app. simpl.
    change (list_bind Append.t string (spec_append_pairs (mem w)) items)
      with (items ≫= spec_append_pairs (mem w)).
    split; lia.
  - pose proof (Hq [c] []) as Hq1. pose proof (Hq cs (appends (self w))) as Hq2.
    pose proof (Ha [c] []) as Ha1. pose proof (Ha cs (appends (self w))) as Ha2.
    pose proof (He [c] []) as He1. pose proof (He cs (appends (self w))) as He2.
    simpl in Hq1, Ha1, He1.
    apply Forall_inv in Hq1, Ha1, He1.
    change (length ((spec_constraint_pair (mem w) <$> c :: cs)
                      ++ appends (self w) ≫= spec_append_pairs (mem w)))
      with (S (length ((spec_constraint_pair (mem w) <$> cs)
                         ++ appends (self w) ≫= spec_append_pairs (mem w)))).
    set (rest := (spec_constraint_pair (mem w) <$> cs)
                   ++ appends (self w) ≫= spec_append_pairs (mem w)) in *.
    clearbody rest.
    rewrite !occurrences_app.
    rewrite (occurrences_prefixed _ _ _ _ Hq2),
      (occurrences_prefixed _ _ _ _ Ha2),
      (occurrences_prefixed _ _ _ _ He2), Hq1, Ha1, He1.
    simpl. split; lia.
Qed.

Lemma toQueryString_separators_witness :
  serialisable (mem sample_world) (self sample_world) = true
  /\ toQueryString sample_world
     = (Return ("?filters[tags][]=a%2Cb&limit=15&page=1"
                  +:+ "&order[]=%5Bobject%20Object%5D"), sample_world)
  /\ length (spec_pairs (mem sample_world) (self sample_world)) = 4%nat
  /\ exists query_string,
      toQueryString sample_world = (Return query_string, sample_world)
      /\ (occurrences "?" query_string + occurrences "&" query_string)%nat
         = length (spec_pairs (mem sample_world) (self sample_world))
      /\ occurrences "=" query_string
         = length (spec_pairs (mem sample_world) (self sample_world)).
Proof.
  split; [reflexivity|]. split; [reflexivity|]. split; [reflexivity|].
  exact (toQueryString_separators sample_world eq_refl).
Defined.

Lemma to_string_aux_primitive (fuel fuel' : nat) (h : heap)
  (seen seen' : list loc) (x : value) :
  is_ref x = false ->
  to_string_aux fuel h seen x = to_string_aux fuel' h seen' x.
Proof. by destruct x, fuel, fuel'. Qed.

Lemma to_string_array (h : heap) (l : loc) (xs : list value) :
  h !! l = Some (OArray xs) ->
  Forall (fun x => is_ref x = false) xs ->
  to_string h (VRef l) = join "," (map (element_string h) xs).
Proof.
  intros Hl Hxs. unfold to_string. cbn [to_string_aux].
  rewrite bool_decide_eq_false_2 by apply not_elem_of_nil.
  rewrite Hl. clear Hl. f_equal.
  induction Hxs as [|x xs Hx _ IH]; [done|].
  cbn [map]. rewrite IH. f_equal.
  unfold element_string, to_string.
  destruct x; try done; by apply to_string_aux_primitive.
Qed.

(** A constraint whose value is an array of values that are no arrays or
    objects, the numbers among them safe integers, is written as one pair:
    the elements ([undefined] and [null] as nothing) are joined by commas
    and the whole is escaped, the comma included; it is not spread over one
    pair per element as an array parameter is.  A constraint whose value is
    a plain object without a property [toString] of its own is written as
    the escaped text [[object Object]]. *)
Theorem constraint_with_composite_value (h : heap) (acc : string)
  (first : bool) (c : Constraint.t) (l : loc) :
  Constraint.value c = VRef l ->
  (forall xs,
     h !! l = Some (OArray xs) ->
     Forall (fun x => is_ref x = false /\ converts h x = true) xs ->
     visit_constraint h (acc, first) c
     = ((acc +:+ separator first)
          +:+ "filters[" +:+ uri_encode (Constraint.filter c)
          +:+ "][]=" +:+ uri_encode (join "," (map (element_string h) xs)),
        false))
  /\ (forall ps,
        h !! l = Some (OObject ps) ->
        "toString" ∉ ps.*1 ->
        visit_constraint h (acc, first) c
        = ((acc +:+ separator first)
             +:+ "filters[" +:+ uri_encode (Constraint.filter c)
             +:+ "][]=" +:+ "%5Bobject%20Object%5D",
           false)).
Proof.
  intros Hv. unfold visit_constraint, encodeURIComponent. rewrite Hv. split.
  - intros xs Hl Hxs. rewrite (to_string_array _ _ _ Hl); [done|].
    eapply Forall_impl; [exact Hxs|]. by intros x [Hx _].
  - intros ps Hl _. unfold to_string. cbn [to_string_aux].
    rewrite bool_decide_eq_false_2 by apply not_elem_of_nil.
    by rewrite Hl.
Qed.

Lemma constraint_with_composite_value_witness :
  let h := [OArray [VStr "a"; VNull; VNum 2]] in
  let w := snd (where_ "tags" (VRef 0%nat)
                  {| mem := h; self := new {| url := "/users" |} |}) in
  visit_constraint h ("", true)
    {| Constraint.filter := "tags"; Constraint.value := VRef 0%nat |}
  = ("?filters[tags][]=a%2C%2C2", false)
  /\ fst (toQueryString w)
     = Return "?filters[tags][]=a%2C%2C2&limit=15&page=1"
  /\ visit_constraint [OObject [("k", VNum 1)]] ("?page=1", false)
       {| Constraint.filter := "o"; Constraint.value := VRef 0%nat |}
     = ("?page=1&filters[o][]=%5Bobject%20Object%5D", false).
Proof.
  intros h w. split; [|split; [reflexivity|]].
  - destruct (constraint_with_composite_value h "" true
                {| Constraint.filter := "tags";
                   Constraint.value := VRef 0%nat |}
                0%nat eq_refl) as [Harr _].
    exact (Harr [VStr "a"; VNull; VNum 2] eq_refl
             ltac:(repeat constructor)).
  - destruct (constraint_with_composite_value [OObject [("k", VNum 1)]]
                "?page=1" false
                {| Constraint.filter := "o"; Constraint.value := VRef 0%nat |}
                0%nat eq_refl) as [_ Hobj].
    exact (Hobj [("k", VNum 1)] eq_refl
             ltac:(simpl; by rewrite list_elem_of_singleton)).
Defined.

(** ** Reading the ordering back *)

(** When the arguments of [orderBy] have a content (of a depth within [n]),
    [orderingBy()] right after it hands back a copy of the array of these
    arguments: a new location whose content is the list of their contents,
    with the isolation of a deep copy. *)
Theorem orderBy_then_orderingBy (os : list value) (ts : list tree)
  (n : nat) (w : World) :
  mapM (read n (mem w)) os = Some ts ->
  let w1 := snd (orderBy os w) in
  let stored := VRef (length (mem w)) in
  fst (getVariable "order" VNull w1) = Return stored
  /\ read (S n) (mem w1) stored = Some (TArray ts)
  /\ deep_copy_of (S n) stored w1 (orderingBy (S n) w1)
  /\ exists l' h',
      orderingBy (S n) w1 = (Return (VRef l'), {| mem := h'; self := self w1 |})
      /\ read (S n) h' (VRef l') = Some (TArray ts).
Proof.
  intros Hos w1 stored.
  assert (Hw1 : mem w1 = mem w ++ [OArray os]
                /\ exists i,
                    Collection.get Append.name "order" (appends (self w1))
                    = Some (i, {| Append.name := "order";
                                  Append.value := stored |})).
  { unfold w1, stored.
    destruct (Collection.get Append.name "order" (appends (self w)))
      as [[i item]|] eqn:Hg.
    - rewrite (orderBy_present _ _ _ _ Hg). simpl. split; [done|].
      exists i. by eapply get_insert_same.
    - rewrite (orderBy_absent _ _ Hg). simpl. split; [done|].
      eexists. by apply get_push_absent. }
  destruct Hw1 as [Hm [i Hg]].
  assert (Hread : read (S n) (mem w1) stored = Some (TArray ts)).
  { unfold stored. simpl. rewrite Hm, list_lookup_middle by done.
    erewrite (proj2 (mapM_Some _ _ _)); [done|].
    apply mapM_Some in Hos. eapply Forall2_impl; [exact Hos|].
    intros x t. apply read_app. }
  assert (Hcopy : deep_copy_of (S n) stored w1 (orderingBy (S n) w1)).
  { rewrite (orderingBy_set _ _ _ _ Hg). simpl.
    by eapply clone_deep_copy. }
  split; [by rewrite (getVariable_present _ _ _ _ _ Hg)|].
  split; [done|]. split; [done|].
  destruct Hcopy as (l' & h' & Hres & _ & Hsame & _).
  exists l', h'. split; [done|]. by rewrite Hsame.
Qed.

Lemma orderBy_then_orderingBy_witness :
  let h := [OObject [("attribute", VStr "name"); ("direction", VStr "asc")]] in
  let w := {| mem := h; self := new {| url := "/users" |} |} in
  let w1 := snd (orderBy [VRef 0%nat] w) in
  mapM (read 1 h) [VRef 0%nat]
  = Some [TObject [("attribute", TLeaf (VStr "name"));
                   ("direction", TLeaf (VStr "asc"))]]
  /\ deep_copy_of 2 (VRef 1%nat) w1 (orderingBy 2 w1).
Proof.
  intros h w w1. split; [reflexivity|].
  destruct (orderBy_then_orderingBy [VRef 0%nat]
              [TObject [("attribute", TLeaf (VStr "name"));
                        ("direction", TLeaf (VStr "asc"))]] 1 w eq_refl)
    as (_ & _ & Hcopy & _).
  exact Hcopy.
Defined.

(** ** Responses: the success path, statuses without handler, bad payloads *)

(** On a 200 response and with a success function, the function is called
    once, and nothing else.  When the response carries an array of records
    under [data], [get] and [update] pass a collection bound to the builder,
    holding one model per record, in order, each marked as existing, and the
    payload; when the body itself is an array of records, [deleteResults]
    passes such a collection alone; [insert] passes one existing model made
    of the body, whatever the body is. *)
Theorem success_receives_existing_models (w : World) (f : string)
  (error : callback) (attributes : value) (h : heap) :
  (forall payload l xs,
     property h payload "data" = Return (VRef l) ->
     h !! l = Some (OArray xs) ->
     let collection := {| models := map existing_model xs; query := This |} in
     dispatch (get (Function f) error) w 200 h payload
     = {| calls := [ {| callee := f;
                        arguments := [ArgCollection collection;
                                      ArgValue payload] |} ];
          raised := None |}
     /\ dispatch (update attributes (Function f) error) w 200 h payload
        = {| calls := [ {| callee := f;
                           arguments := [ArgCollection collection;
                                         ArgValue payload] |} ];
             raised := None |})
  /\ (forall l xs,
        h !! l = Some (OArray xs) ->
        let collection :=
          {| models := map existing_model xs; query := This |} in
        dispatch (deleteResults (Function f) error) w 200 h (VRef l)
        = {| calls := [ {| callee := f;
                           arguments := [ArgCollection collection] |} ];
             raised := None |})
  /\ (forall data,
        dispatch (insert attributes (Function f) error) w 200 h data
        = {| calls := [ {| callee := f;
                           arguments := [ArgModel (existing_model data)] |} ];
             raised := None |}).
Proof.
  split; [|split].
  - intros payload l xs Hp Hl collection. unfold dispatch. simpl.
    unfold Ajax.respond. simpl. rewrite Hp. simpl. rewrite Hl. by split.
  - intros l xs Hl collection. unfold dispatch. simpl.
    unfold Ajax.respond. simpl. by rewrite Hl.
  - intros data. reflexivity.
Qed.

Lemma success_receives_existing_models_witness :
  let h := [OArray [VStr "r1"; VStr "r2"]; OObject [("data", VRef 0%nat)]] in
  let w := {| mem := []; self := new {| url := "/users" |} |} in
  let collection :=
    {| models := [existing_model (VStr "r1"); existing_model (VStr "r2")];
       query := This |} in
  dispatch (get (Function "done") (NotFunction VUndefined)) w 200 h
    (VRef 1%nat)
  = {| calls := [ {| callee := "done";
                     arguments := [ArgCollection collection;
                                   ArgValue (VRef 1%nat)] |} ];
       raised := None |}
  /\ dispatch (deleteResults (Function "done") (NotFunction VUndefined)) w
       200 h (VRef 0%nat)
     = {| calls := [ {| callee := "done";
                        arguments := [ArgCollection collection] |} ];
          raised := None |}
  /\ dispatch (insert VNull (Function "done") (NotFunction VUndefined)) w
       200 h (VRef 1%nat)
     = {| calls := [ {| callee := "done";
                        arguments :=
                          [ArgModel (existing_model (VRef 1%nat))] |} ];
          raised := None |}.
Proof.
  intros h w collection.
  destruct (success_receives_existing_models w "done"
              (NotFunction VUndefined) VNull h) as (Hget & Hdelete & Hinsert).
  split; [|split].
  - exact (proj1 (Hget (VRef 1%nat) 0%nat [VStr "r1"; VStr "r2"]
                    eq_refl eq_refl)).
  - exact (Hdelete 0%nat [VStr "r1"; VStr "r2"] eq_refl).
  - exact (Hinsert (VRef 1%nat)).
Defined.

(** A response whose status has no handler is dropped: for [get], [update]
    and [insert] every status but 200, 422 and 500 (so also 403), for
    [deleteResults] every status but these and 403, calls neither callback
    and raises nothing. *)
Theorem status_without_handler_is_dropped (w : World)
  (success error : callback) (attributes : value) (h : heap)
  (response : value) (status : Z) :
  status <> 200 -> status <> 422 -> status <> 500 ->
  dispatch (get success error) w status h response = silent
  /\ dispatch (update attributes success error) w status h response = silent
  /\ dispatch (insert attributes success error) w status h response = silent
  /\ (status <> 403 ->
      dispatch (deleteResults success error) w status h response = silent).
Proof.
  intros H200 H422 H500. unfold dispatch, Ajax.respond. simpl.
  repeat split; intros; repeat case_decide; simpl in *;
    first [congruence | reflexivity].
Qed.

Lemma status_without_handler_is_dropped_witness :
  let w := {| mem := []; self := new {| url := "/users" |} |} in
  dispatch (get (Function "done") (Function "fail")) w 404 [] VNull = silent
  /\ dispatch (update VNull (Function "done") (Function "fail")) w 403 []
       VNull = silent.
Proof.
  intros w.
  destruct (status_without_handler_is_dropped w (Function "done")
              (Function "fail") VNull [] VNull 404
              ltac:(discriminate) ltac:(discriminate) ltac:(discriminate))
    as (Hget & _).
  destruct (status_without_handler_is_dropped w (Function "done")
              (Function "fail") VNull [] VNull 403
              ltac:(discriminate) ltac:(discriminate) ltac:(discriminate))
    as (_ & Hupdate & _).
  split; [exact Hget | exact Hupdate].
Defined.

(** On a 200 response whose body is [null] or [undefined], or has no
    [data] (or a [null] one): [get], and [update] given a success function,
    raise a TypeError and call nothing; so does [deleteResults], given a
    success function, on a [null] or [undefined] body. *)
Theorem success_without_records_raises (w : World) (success error : callback)
  (f : string) (attributes : value) (h : heap) (payload : value) :
  property h payload "data" = Throw TypeError
  \/ property h payload "data" = Return VUndefined
  \/ property h payload "data" = Return VNull ->
  dispatch (get success error) w 200 h payload = raise TypeError
  /\ dispatch (update attributes (Function f) error) w 200 h payload
     = raise TypeError
  /\ dispatch (deleteResults (Function f) error) w 200 h VNull
     = raise TypeError
  /\ dispatch (deleteResults (Function f) error) w 200 h VUndefined
     = raise TypeError.
Proof.
  intros Hp. unfold dispatch, Ajax.respond. simpl.
  destruct Hp as [-> | [-> | ->]]; repeat split.
Qed.

Lemma success_without_records_raises_witness :
  let h := [OObject [("total", VNum 0)]] in
  let w := {| mem := []; self := new {| url := "/users" |} |} in
  property h (VRef 0%nat) "data" = Return VUndefined
  /\ dispatch (get (Function "done") (Function "fail")) w 200 h (VRef 0%nat)
     = raise TypeError.
Proof.
  intros h w. split; [reflexivity|].
  destruct (success_without_records_raises w (Function "done")
              (Function "fail") "done" VNull h (VRef 0%nat)
              (or_intror (or_introl eq_refl))) as (Hget & _).
  exact Hget.
Defined.

Lemma omitted_callbacks_silent_witness :
  let w := {| mem := []; self := new {| url := "/users" |} |} in
  dispatch (update VNull (NotFunction VUndefined) (NotFunction VUndefined))
    w 200 [] VNull = silent
  /\ dispatch (get (NotFunction VUndefined) (NotFunction VUndefined))
       w 422 [] VNull = silent.
Proof.
  intros w.
  destruct (omitted_callbacks_silent w VUndefined VUndefined VNull [] VNull
              200 (or_introl eq_refl)) as (_ & Hupdate & _).
  destruct (omitted_callbacks_silent w VUndefined VUndefined VNull [] VNull
              422 (or_intror (or_intror (or_introl eq_refl))))
    as (Hget & _).
  split; [exact Hupdate | exact (Hget ltac:(discriminate))].
Defined.

(** ** Sequences of calls only add *)

(** Whatever the calls made on a builder, in whatever state: the model
    descriptor stays, the heap is extended at its end, and the keys the two
    stores had before the calls are still there afterwards, in the same
    order and at the same positions, new keys coming after them; nothing the
    interface offers removes or reorders a constraint or a parameter. *)
Theorem calls_only_add (cs : list mutator) (w : World) :
  let w' := perform_all cs w in
  model (self w') = model (self w)
  /\ (exists ext, mem w' = mem w ++ ext)
  /\ (exists extra,
        Constraint.filter <$> _constraints (self w')
        = (Constraint.filter <$> _constraints (self w)) ++ extra)
  /\ (exists extra,
        Append.name <$> appends (self w')
        = (Append.name <$> appends (self w)) ++ extra).
Proof.
  revert w. induction cs as [|c cs IH]; intros w; simpl.
  - split; [done|].
    split; [exists []; by rewrite app_nil_r|].
    split; exists []; by rewrite app_nil_r.
  - destruct (mutators_only_add c w)
      as (Hm & (e1 & Hh & _) & (c1 & Hc & _) & (a1 & Ha & _)).
    destruct (IH (snd (perform c w)))
      as (Hm' & (e2 & Hh') & (c2 & Hc') & (a2 & Ha')).
    unfold perform_all in *. simpl in *.
    split; [by rewrite Hm', Hm|].
    split; [exists (e1 ++ e2); by rewrite Hh', Hh, app_assoc|].
    split.
    + exists (c1 ++ c2). by rewrite Hc', Hc, app_assoc.
    + exists (a1 ++ a2). by rewrite Ha', Ha, app_assoc.
Qed.
